(** * systemgo: the unit registry, the ordering of a start request and the
    bounded log, embedded from [src/system/daemon.go] and [src/system/log.go].

    Layout of the development:
    - shared data: Go error values, path helpers, the file-system view;
    - [Daemon1]: the registry of [daemon.go] ([loadDeps], [order],
      [traverse], [Start]);
    - [LogBuf]: [bytes.Buffer], [bytes.Reader] and the [Log] built on them;
    - [Daemon2]: the registry of the second [Daemon] in [log.go]
      ([Get], [load], [newUnit], [Supervise], [Isolate]);
    - the theorems, one part per module. *)

From Stdlib Require Import Ascii String.
From stdpp Require Import gmap strings list fin_maps relations.

Open Scope string_scope.

(** ** Shared data *)

(** A [*Unit]: an address in the unit store.  [nil] is the Go nil pointer; no
    unit is ever allocated there. *)
Abbreviation ptr := nat (only parsing).

Definition nil : ptr := 0.

(** The line terminator. *)
Definition nl : string := String "010"%char "".

(** Go error values met in the two files.  [errBlank] is the package variable
    [errors.New("")] of [daemon.go], compared by identity; [Errorf] is a value
    made by [fmt.Errorf]; [OsError] is an error of the [os] package other than
    "does not exist". *)
Inductive error : Type :=
| errBlank
| Errorf (msg : string)
| ErrNotFound
| ErrUnknownType
| ErrIsDir
| ErrNotDir
| ErrExists
| ErrNotImplemented
| ErrNoReload
| ErrDepFail
| ErrConflict
| EOF
| OsError (msg : string)
| MultiError (msgs : list string)
| ParseError (msg : string).

#[global] Instance error_eq_dec : EqDecision error.
Proof. solve_decision. Defined.

(** Modelled from the spec: the message texts of the sentinel errors are
    declared in a file that is not part of the sources; the names of the
    taxonomy of section 7 stand for them.  The texts of [errBlank] and of
    [fmt.Errorf] values are those of the code. *)
Definition Error (e : error) : string :=
  match e with
  | errBlank => ""
  | Errorf msg | OsError msg | ParseError msg => msg
  | ErrNotFound => "NotFound"
  | ErrUnknownType => "UnsupportedType"
  | ErrIsDir => "IsDirectory"
  | ErrNotDir => "NotDirectory"
  | ErrExists => "AlreadyExists"
  | ErrNotImplemented => "NotImplemented"
  | ErrNoReload => "NoReloadSupport"
  | ErrDepFail => "DependencyFailure"
  | ErrConflict => "TransactionConflict"
  | EOF => "EOF"
  | MultiError _ => "DefinitionInvalid"
  end.

(** A call either returns or leaves the normal control flow: a nil
    dereference or an explicit [panic] / [log.Fatalln], or, for the two
    unbounded loops of the model, an exhausted iteration budget. *)
Inductive outcome (A : Type) : Type :=
| Ret (a : A)
| Panic (msg : string)
| OutOfFuel.

Arguments Ret {A} a.
Arguments Panic {A} msg.
Arguments OutOfFuel {A}.

#[global] Instance outcome_bind : MBind outcome := λ A B f m,
  match m with
  | Ret a => f a
  | Panic msg => Panic msg
  | OutOfFuel => OutOfFuel
  end.

#[global] Instance outcome_ret : MRet outcome := λ A a, Ret a.

(** *** [path/filepath] and [strings] *)

Definition IsPathSeparator (c : ascii) : bool := bool_decide (c = "/"%char).

(** [filepath.Ext]: the index runs from the last byte down to the first and
    stops at a separator; [i] is one more than the index inspected. *)
Fixpoint Ext_loop (path : string) (i : nat) : string :=
  match i with
  | 0 => ""
  | S j =>
      match String.get j path with
      | Some c =>
          if IsPathSeparator c then ""
          else if bool_decide (c = "."%char)
               then String.substring j (String.length path - j) path
               else Ext_loop path j
      | None => ""
      end
  end.

Definition Ext (path : string) : string := Ext_loop path (String.length path).

(** [filepath.IsAbs] on a Unix system. *)
Definition IsAbs (path : string) : bool :=
  match path with
  | String c _ => IsPathSeparator c
  | EmptyString => false
  end.

Definition HasSuffix (s suffix : string) : bool :=
  bool_decide (String.length suffix ≤ String.length s)%nat &&
  bool_decide (String.substring (String.length s - String.length suffix)
                 (String.length suffix) s = suffix).

Definition TrimSuffix (s suffix : string) : string :=
  if HasSuffix s suffix
  then String.substring 0 (String.length s - String.length suffix) s
  else s.

(** The package variable [supported] and the two functions reading it.  A key
    that is absent reads as [false], the zero value. *)
Definition supported : gmap string bool :=
  <[".service" := true]> (<[".target" := true]>
  (<[".mount" := false]> (<[".socket" := false]> ∅))).

Definition SupportedSuffix (suffix : string) : bool :=
  default false (supported !! suffix).

Definition Supported (filename : string) : bool :=
  SupportedSuffix (Ext filename).

(** *** Unit definitions and the file system

    Parsing a unit file is the business of the unit implementations
    ([service.Unit], [target.Unit]); here a file carries the result that
    [Define] has on it. *)
Record UnitDef : Type := mkDef {
  Requires : list string;
  Wants : list string;
  After : list string;
  Before : list string;
  Conflicts : list string }.

Definition no_def : UnitDef := mkDef [] [] [] [] [].

Inductive define_result : Type :=
| DefineOk (d : UnitDef)
| DefineMulti (msgs : list string)
| DefineErr (msg : string).

Record File : Type := mkFile {
  stat_err : option error;
  is_dir : bool;
  parse : define_result;
  close_err : option error }.

Inductive open_result : Type :=
| Opened (f : File)
| NotExist
| OpenErr (msg : string).

(** What [os.Open] answers for each path. *)
Abbreviation FS := (string → open_result) (only parsing).

(** [unit.Load]: the sources name [unit.Loaded] and [unit.Error]; a unit that
    has not been defined yet is [Unloaded]. *)
Inductive Load : Type := Unloaded | Loaded | LoadError | Masked.

Inductive Activation : Type := Inactive | Active | Failed.

Inductive Kind : Type := Target | Service.

(** [unit.Enable] is an integer type declared outside the sources; [Enabled]
    is the constant of that name, [EnableOf n] the conversion of [n]. *)
Inductive Enable : Type := Enabled | EnableOf (n : Z).

#[global] Instance Load_eq_dec : EqDecision Load.
Proof. solve_decision. Defined.

#[global] Instance Activation_eq_dec : EqDecision Activation.
Proof. solve_decision. Defined.

#[global] Instance Kind_eq_dec : EqDecision Kind.
Proof. solve_decision. Defined.

(** The order in which a [range] statement walks a map is not fixed by Go.
    Every loop over a map takes its sequence of entries from an oracle, and the
    theorems hold for every oracle that enumerates the map. *)
Definition enumerates {K V} `{Countable K}
    (rng : gmap K V → list (K * V)) : Prop :=
  ∀ m, rng m ≡ₚ map_to_list m.

(** ** [daemon.go]: the first registry *)

Module Daemon1.

(** The fields of [Unit] that [daemon.go] touches.  [u_def] is the state of
    the embedded [unit.Interface]: what [Requires()], [Wants()], [After()],
    [Before()] and [Conflicts()] answer.  [u_Log] keeps the lines printed to
    the unit's log, without the logger's prefix. *)
Record Unit : Type := mkUnit {
  u_path : string;
  u_loaded : Load;
  u_requires : gmap string ptr;
  u_kind : Kind;
  u_def : UnitDef;
  u_Log : list string }.

(** [Daemon], with the store of the units it points to ([mem]).  [State],
    [Since], [Log] and [jobs] play no part in the functions below. *)
Record Daemon : Type := mkDaemon {
  mem : gmap ptr Unit;
  active : gmap string ptr;
  loaded : gmap string ptr;
  parsed : gmap string ptr;
  names : gmap ptr string;
  Paths : list string }.

Definition NewUnit (k : Kind) : Unit := mkUnit "" Unloaded ∅ k no_def [].

Definition deref (h : gmap ptr Unit) (u : ptr) : outcome Unit :=
  match h !! u with
  | Some x => Ret x
  | None => Panic "invalid memory address or nil pointer dereference"
  end.

Definition set_mem (h : gmap ptr Unit) (sys : Daemon) : Daemon :=
  mkDaemon h (active sys) (loaded sys) (parsed sys) (names sys) (Paths sys).

Definition printf (line : string) (x : Unit) : Unit :=
  mkUnit (u_path x) (u_loaded x) (u_requires x) (u_kind x) (u_def x)
         (u_Log x ++ [line]).

Section registry.

(** [filepath.Join] and the file system are taken as given. *)
Variable Join : string → string → string.
Variable fs : FS.

(** The body of the loop of [Load] over the candidate paths. *)
Fixpoint Load_paths (sys : Daemon) (name : string) (paths : list string)
    : outcome (Daemon * ptr * option error) :=
  match paths with
  | [] => Ret (sys, nil, Some ErrNotFound)
  | path :: paths' =>
      match fs path with
      | NotExist => Load_paths sys name paths'
      | OpenErr msg => Ret (sys, nil, Some (OsError msg))
      | Opened file =>
          '(sys, u) ←
            match parsed sys !! name with
            | Some u => Ret (sys, u)
            | None =>
                k ← (if decide (Ext path = ".target") then Ret Target
                     else if decide (Ext path = ".service") then Ret Service
                     else Panic "Trying to load an unsupported unit type");
                let u := fresh ({[nil]} ∪ dom (mem sys)) in
                let parsed1 := <[name := u]> (parsed sys) in
                Ret (mkDaemon (<[u := NewUnit k]> (mem sys)) (active sys)
                       (loaded sys)
                       (if decide (name = path) then parsed1
                        else <[path := u]> parsed1)
                       (<[u := name]> (names sys)) (Paths sys), u)
            end;
          x ← deref (mem sys) u;
          let x := mkUnit path (u_loaded x) (u_requires x) (u_kind x)
                     (u_def x) (u_Log x) in
          let err := match stat_err file with
                     | Some e => Some e
                     | None => if is_dir file then Some ErrIsDir else None
                     end in
          match err with
          | Some e =>
              Ret (set_mem (<[u := printf (Error e) x]> (mem sys)) sys, u,
                   Some e)
          | None =>
              match parse file with
              | DefineMulti msgs =>
                  let x := foldl (λ x msg, printf msg x)
                             (printf "Definition is invalid:" x) msgs in
                  let x := mkUnit (u_path x) LoadError (u_requires x)
                             (u_kind x) (u_def x) (u_Log x) in
                  Ret (set_mem (<[u := x]> (mem sys)) sys, u,
                       Some (MultiError msgs))
              | DefineErr msg =>
                  let x := printf ("Error parsing definition: " ++ msg) x in
                  let x := mkUnit (u_path x) LoadError (u_requires x)
                             (u_kind x) (u_def x) (u_Log x) in
                  Ret (set_mem (<[u := x]> (mem sys)) sys, u,
                       Some (ParseError msg))
              | DefineOk d =>
                  let x := mkUnit (u_path x) Loaded (u_requires x) (u_kind x)
                             d (u_Log x) in
                  Ret (mkDaemon (<[u := x]> (mem sys)) (active sys)
                         (<[name := u]> (loaded sys)) (parsed sys)
                         (names sys) (Paths sys), u, None)
              end
          end
      end
  end.

Definition Load (sys : Daemon) (name : string)
    : outcome (Daemon * ptr * option error) :=
  if negb (Supported name) then Ret (sys, nil, Some ErrUnknownType)
  else
    Load_paths sys name
      (if IsAbs name then [name] else (λ path, Join path name) <$> Paths sys).

Definition Get (sys : Daemon) (name : string)
    : outcome (Daemon * ptr * option error) :=
  match loaded sys !! name with
  | Some u => Ret (sys, u, None)
  | None => Load sys name
  end.

(** [IsEnabled] of [daemon.go]: the lookup is commented out in the source. *)
Definition IsEnabled (sys : Daemon) (name : string) : Enable * option error :=
  (Enabled, Some ErrNotImplemented).

(** The inner loop of [loadDeps] over [u.Wants()]; a failing [Get] is
    ignored and leaves whatever pointer it returned in [units]. *)
Definition loadDeps_wants (st : outcome (Daemon * gmap string ptr))
    (name : string) : outcome (Daemon * gmap string ptr) :=
  '(sys, units) ← st;
  if decide (is_Some (units !! name)) then Ret (sys, units)
  else '(sys, u, _) ← Get sys name; Ret (sys, <[name := u]> units).

(** The work list of [loadDeps]; one unit of [fuel] per iteration. *)
Fixpoint loadDeps_loop (fuel : nat) (sys : Daemon) (units : gmap string ptr)
    (names : list string) : outcome (Daemon * gmap string ptr * option error) :=
  match names with
  | [] => Ret (sys, units, None)
  | name :: names' =>
      match fuel with
      | 0 => OutOfFuel
      | S fuel' =>
          if decide (is_Some (units !! name))
          then loadDeps_loop fuel' sys units names'
          else
            '(sys, u, err) ← Get sys name;
            match err with
            | Some _ =>
                Ret (sys, ∅, Some (Errorf ("Error loading dependency: " ++ name)))
            | None =>
                let units := <[name := u]> units in
                x ← deref (mem sys) u;
                '(sys, units) ← foldl loadDeps_wants (Ret (sys, units))
                                  (Wants (u_def x));
                loadDeps_loop fuel' sys units (names' ++ Requires (u_def x))
            end
      end
  end.

Definition loadDeps (fuel : nat) (sys : Daemon) (names : list string)
    : outcome (Daemon * gmap string ptr * option error) :=
  loadDeps_loop fuel sys ∅ names.

End registry.

(** *** The ordering graph *)

Record graph : Type := mkGraph {
  ordered : gset ptr;
  visited : gset ptr;
  before : gmap ptr (gmap string ptr);
  ordering : list ptr }.

Definition set_visited (v : gset ptr) (g : graph) : graph :=
  mkGraph (ordered g) v (before g) (ordering g).

(** [g.before[u][n] = d]; [g.before[u]] has been initialised for every unit
    of the request before the first assignment. *)
Definition add_before (b : gmap ptr (gmap string ptr)) (u : ptr) (n : string)
    (d : ptr) : gmap ptr (gmap string ptr) :=
  <[u := <[n := d]> (default ∅ (b !! u))]> b.

Section order.

(** The sequences in which [traverse] walks [g.before[u]] and in which the
    three loops of [order] walk [units]. *)
Variable range_before : ptr → gmap string ptr → list (string * ptr).
Variable range_units : nat → gmap string ptr → list (string * ptr).

(** The loop of [traverse] over [g.before[u]], with the recursive call as a
    parameter. *)
Fixpoint traverse_range (trav : graph → ptr → outcome (graph * option error))
    (deps : list (string * ptr)) (g : graph)
    : outcome (graph * option error) :=
  match deps with
  | [] => Ret (g, None)
  | (name, dep) :: deps' =>
      match trav g dep with
      | Ret (g', None) => traverse_range trav deps' g'
      | Ret (g', Some err) =>
          Ret (g', Some (if decide (err = errBlank)
                         then Errorf (name ++ nl)
                         else Errorf (name ++ nl ++ name ++ " depends on "
                                        ++ Error err)))
      | Panic msg => Panic msg
      | OutOfFuel => OutOfFuel
      end
  end.

(** [graph.traverse]; every nested call uses one unit of [fuel]. *)
Fixpoint traverse (fuel : nat) (g : graph) (u : ptr)
    : outcome (graph * option error) :=
  match fuel with
  | 0 => OutOfFuel
  | S fuel' =>
      if decide (u ∈ ordered g) then Ret (g, None)
      else if decide (u ∈ visited g) then Ret (g, Some errBlank)
      else
        let g := set_visited ({[u]} ∪ visited g) g in
        match traverse_range (traverse fuel')
                (range_before u (default ∅ (before g !! u))) g with
        | Ret (g, None) =>
            let g := set_visited (visited g ∖ {[u]}) g in
            if decide (u ∈ ordered g) then Ret (g, None)
            else Ret (mkGraph ({[u]} ∪ ordered g) (visited g) (before g)
                        (ordering g ++ [u]), None)
        | other => other
        end
  end.

(** First loop of [order]. *)
Definition order_init (b : gmap ptr (gmap string ptr)) (e : string * ptr)
    : gmap ptr (gmap string ptr) :=
  <[e.2 := ∅]> b.

Definition order_after (units : gmap string ptr) (unit : ptr)
    (b : gmap ptr (gmap string ptr)) (depname : string)
    : gmap ptr (gmap string ptr) :=
  match units !! depname with
  | Some dep => add_before b unit depname dep
  | None => b
  end.

Definition order_before (units : gmap string ptr) (name : string) (unit : ptr)
    (b : gmap ptr (gmap string ptr)) (depname : string)
    : gmap ptr (gmap string ptr) :=
  match units !! depname with
  | Some dep => add_before b dep name unit
  | None => b
  end.

(** [unit.requires[depname] = units[depname]]: an absent name stores nil. *)
Definition order_requires (units : gmap string ptr) (unit : ptr)
    (h : gmap ptr Unit) (depname : string) : gmap ptr Unit :=
  alter (λ x, mkUnit (u_path x) (u_loaded x)
                (<[depname := default nil (units !! depname)]> (u_requires x))
                (u_kind x) (u_def x) (u_Log x)) unit h.

(** Second loop of [order]: the body for one entry of [units]. *)
Definition order_edges (units : gmap string ptr)
    (st : outcome (gmap ptr (gmap string ptr) * gmap ptr Unit))
    (e : string * ptr) : outcome (gmap ptr (gmap string ptr) * gmap ptr Unit) :=
  '(b, h) ← st;
  x ← deref h e.2;
  let b := foldl (order_after units e.2) b (After (u_def x)) in
  let b := foldl (order_before units e.1 e.2) b (Before (u_def x)) in
  let h := foldl (order_requires units e.2) h (Requires (u_def x)) in
  Ret (b, h).

(** Third loop of [order]. *)
Fixpoint order_dfs (fuel : nat) (todo : list (string * ptr)) (g : graph)
    : outcome (list ptr * option error) :=
  match todo with
  | [] => Ret (ordering g, None)
  | (name, unit) :: todo' =>
      '(g, err) ← traverse fuel g unit;
      match err with
      | Some err =>
          Ret ([], Some (Errorf ("Dependency cycle determined:" ++ nl ++ name
                                   ++ " depends on " ++ Error err)))
      | None => order_dfs fuel todo' g
      end
  end.

(** [Daemon.order].  The recursion of [traverse] is never deeper than the
    number of units plus one, which is the budget it gets. *)
Definition order (h : gmap ptr Unit) (units : gmap string ptr)
    : outcome (gmap ptr Unit * (list ptr * option error)) :=
  let b := foldl order_init ∅ (range_units 0 units) in
  '(b, h) ← foldl (order_edges units) (Ret (b, h)) (range_units 1 units);
  r ← order_dfs (S (size units)) (range_units 2 units) (mkGraph ∅ ∅ b []);
  Ret (h, r).

(** The loop of [Start] over the ordering: [started] lists the units whose
    [Start] has been launched, in launch order. *)
Fixpoint Start_loop (sys : Daemon) (started : list ptr) (ordering : list ptr)
    : outcome (Daemon * list ptr) :=
  match ordering with
  | [] => Ret (sys, started)
  | u :: ordering' =>
      _ ← deref (mem sys) u;
      match names sys !! u with
      | None => Panic "Unnamed unit"
      | Some name =>
          Start_loop (mkDaemon (mem sys) (<[name := u]> (active sys))
                        (loaded sys) (parsed sys) (names sys) (Paths sys))
                     (started ++ [u]) ordering'
      end
  end.

Variable Join : string → string → string.
Variable fs : FS.

(** [Daemon.Start]: the daemon after the call, the units whose [Start] was
    launched, and the error returned. *)
Definition Start (fuel : nat) (sys : Daemon) (names : list string)
    : outcome (Daemon * list ptr * option error) :=
  '(sys, units, err) ← loadDeps Join fs fuel sys names;
  match err with
  | Some err => Ret (sys, [], Some err)
  | None =>
      '(h, (ordering, err)) ← order (mem sys) units;
      let sys := set_mem h sys in
      match err with
      | Some err => Ret (sys, [], Some err)
      | None => '(sys, started) ← Start_loop sys [] ordering;
                Ret (sys, started, None)
      end
  end.

End order.

End Daemon1.

(** ** [log.go]: the bounded log

    [Log] embeds a [bytes.Buffer] and a [bytes.Reader] of the Go standard
    library; the two are modelled after the library they come from, as far as
    [Log] calls them. *)

Close Scope string_scope.

Abbreviation bytes := (list Byte.byte) (only parsing).

#[global] Instance byte_eq_dec : EqDecision Byte.byte := Byte.byte_eq_dec.

Definition bytes_of (s : string) : bytes := list_byte_of_string s.

(** The delimiter ['\n']. *)
Definition newline : Byte.byte := Byte.x0a.

(** Byte size of a log created by [NewLog]. *)
Definition BUFFER_SIZE : nat := 10000.

(** *** [bytes.Buffer]

    [buf] is the slice [b.buf] (its length is [len(b.buf)]), [cap] the
    capacity of its backing array and [off] the read offset: the unread
    content is [buf[off:]]. *)
Module Buffer.

Record t : Type := mk { buf : bytes; off : nat; cap : nat }.

(** [bytes.NewBuffer(make([]byte, 0, size))]. *)
Definition NewBuffer (size : nat) : t := mk [] 0 size.

Definition Len (b : t) : nat := length (buf b) - off b.

Definition Cap (b : t) : nat := cap b.

Definition Bytes (b : t) : bytes := drop (off b) (buf b).

(** [Reset] is [Truncate(0)]: the space is reused, the capacity stays. *)
Definition Reset (b : t) : t := mk [] 0 (cap b).

(** [grow(n)] makes room for [n] more bytes: it reuses the space of an empty
    buffer, and when the backing array is too short it either slides the
    unread content down to the start (if that leaves the array at most half
    full) or moves it to a new array of capacity [2*cap + n]. *)
Definition grow (b : t) (n : nat) : t :=
  let m := Len b in
  let b := if bool_decide (m = 0) && negb (bool_decide (off b = 0))
           then Reset b else b in
  if bool_decide (cap b < length (buf b) + n)
  then
    if bool_decide (m + n ≤ cap b / 2)
    then mk (drop (off b) (buf b)) 0 (cap b)
    else mk (drop (off b) (buf b)) 0 (2 * cap b + n)
  else b.

(** [Write] never fails: it grows the buffer as needed and copies [p] behind
    the content. *)
Definition Write (b : t) (p : bytes) : t * nat * option error :=
  let b := grow b (length p) in
  (mk (buf b ++ p) (off b) (cap b), length p, None).

(** [Read(p)] with [len(p) = n]: the bytes copied into [p]. *)
Definition Read (b : t) (n : nat) : t * bytes * option error :=
  if bool_decide (length (buf b) ≤ off b)
  then (Reset b, [], if bool_decide (n = 0) then None else Some EOF)
  else
    let data := take n (Bytes b) in
    (mk (buf b) (off b + length data) (cap b), data, None).

(** [IndexByte]. *)
Fixpoint IndexByte (s : bytes) (c : Byte.byte) : option nat :=
  match s with
  | [] => None
  | x :: s' => if decide (x = c) then Some 0 else S <$> IndexByte s' c
  end.

(** [ReadString(delim)]: reads through the first [delim], or everything and
    [io.EOF] when there is none. *)
Definition ReadString (b : t) (delim : Byte.byte) : t * bytes * option error :=
  match IndexByte (Bytes b) delim with
  | Some i =>
      let end_ := off b + i + 1 in
      (mk (buf b) end_ (cap b), take (i + 1) (Bytes b), None)
  | None => (mk (buf b) (length (buf b)) (cap b), Bytes b, Some EOF)
  end.

End Buffer.

(** *** [bytes.Reader]: a slice [s] and the index [i] of the next byte. *)
Module Reader.

Record t : Type := mk { s : bytes; i : nat }.

Definition NewReader (b : bytes) : t := mk b 0.

Definition Len (r : t) : nat :=
  if bool_decide (length (s r) ≤ i r) then 0 else length (s r) - i r.

Definition Read (r : t) (n : nat) : t * bytes * option error :=
  if bool_decide (length (s r) ≤ i r) then (r, [], Some EOF)
  else
    let data := take n (drop (i r) (s r)) in
    (mk (s r) (i r + length data), data, None).

End Reader.

(** *** [Log]

    The embedded [*log.Logger] only formats lines and hands them to [Write];
    it is left out.  A nil [*bytes.Reader] is [None].  The reader's slice
    shares the array of the buffer in Go; the model keeps its bytes, which is
    the same as long as no [Write] happens while a reader is live, and the
    statements about [Read] below are about such runs. *)
Module Log.

Record t : Type := mk { Reader : option Reader.t; buffer : Buffer.t }.

Definition NewLog (size : nat) : t := mk None (Buffer.NewBuffer size).

Definition Len (l : t) : nat := Buffer.Len (buffer l).

Definition Cap (l : t) : nat := Buffer.Cap (buffer l).

(** [Read(b)] with [len(b) = n]: the log after the call, the bytes delivered
    and the error. *)
Definition Read (l : t) (n : nat) : t * bytes * option error :=
  let r := match Reader l with
           | None => Reader.NewReader (Buffer.Bytes (buffer l))
           | Some r => r
           end in
  let '(r, data, err) := Reader.Read r n in
  if bool_decide (err = None) && bool_decide (Reader.Len r = 0)
  then (mk None (buffer l), data, Some EOF)
  else (mk (Some r) (buffer l), data, err).

(** The deferred function of [Write]. *)
Definition Write_deferred (r : Buffer.t * nat * option error)
    : Buffer.t * nat * option error :=
  let '(b, n, err) := r in
  match err with
  | None => let '(b, _, err) := Buffer.ReadString b newline in (b, n, err)
  | Some _ => r
  end.

(** [Write(b)]: the log after the call, the count and the error. *)
Definition Write (l : t) (b : bytes) : t * nat * option error :=
  let '(buffer', n, err) :=
    if bool_decide (Len l + length b ≤ Cap l)
    then Buffer.Write (buffer l) b
    else
      Write_deferred
        (if bool_decide (Cap l ≤ length b)
         then Buffer.Write (Buffer.Reset (buffer l))
                (drop (length b - Cap l) b)
         else
           let '(buffer', _, err) :=
             Buffer.Read (buffer l)
               (Z.to_nat (Z.of_nat (length b) - Z.of_nat (Cap l)
                          + Z.of_nat (Len l))) in
           match err with
           | Some err => (buffer', 0, Some err)
           | None => Buffer.Write buffer' b
           end) in
  (mk (Reader l) buffer', n, err).

(** A run of [Write] calls; it stops at the first error. *)
Fixpoint Writes (l : t) (bs : list bytes) : t * option error :=
  match bs with
  | [] => (l, None)
  | b :: bs' =>
      let '(l, _, err) := Write l b in
      match err with
      | None => Writes l bs'
      | Some err => (l, Some err)
      end
  end.

End Log.

(** ** [log.go]: the second registry *)

Open Scope string_scope.

Module Daemon2.

(** A value of [unit.Interface]: the kind of unit, its parsed definition and
    the activation state it reports. *)
Record Interface : Type := mkInterface {
  i_kind : Kind;
  i_def : UnitDef;
  i_active : Activation }.

(** The fields of [Unit] that the registry touches; [u_Log] keeps the lines
    written to the unit's log.  The back-reference [System] is left out:
    there is one registry. *)
Record Unit : Type := mkUnit {
  u_name : string;
  u_path : string;
  u_load : Load;
  u_Interface : Interface;
  u_Log : list string }.

(** [Daemon], with the store of its units ([mem]); [Log], [state], [since]
    and [mutex] play no part below. *)
Record Daemon : Type := mkDaemon {
  mem : gmap ptr Unit;
  units : gmap string ptr;
  paths : list string }.

(** Modelled from the spec: [NewUnit] lives in a file that is not part of the
    sources; a unit is created on first reference, not yet loaded, with an
    empty origin path (section 3). *)
Definition NewUnit (v : Interface) : Unit := mkUnit "" "" Unloaded v [].

(** Modelled from the spec: [Unit.IsLoaded] is not part of the sources; it
    tells whether the load state is Loaded (section 3). *)
Definition IsLoaded (x : Unit) : bool := bool_decide (u_load x = Loaded).

(** Modelled from the spec: [Unit.Active] delegates to the implementation
    (section 4.2). *)
Definition Unit_Active (x : Unit) : Activation := i_active (u_Interface x).

Definition deref (h : gmap ptr Unit) (u : ptr) : outcome Unit :=
  match h !! u with
  | Some x => Ret x
  | None => Panic "invalid memory address or nil pointer dereference"
  end.

Definition set_mem (h : gmap ptr Unit) (sys : Daemon) : Daemon :=
  mkDaemon h (units sys) (paths sys).

Definition Errorf_log (line : string) (x : Unit) : Unit :=
  mkUnit (u_name x) (u_path x) (u_load x) (u_Interface x) (u_Log x ++ [line]).

Definition set_load (s : Load) (x : Unit) : Unit :=
  mkUnit (u_name x) (u_path x) s (u_Interface x) (u_Log x).

Definition Paths (sys : Daemon) : list string := paths sys.

Definition SetPaths (sys : Daemon) (ps : list string) : Daemon :=
  mkDaemon (mem sys) (units sys) ps.

(** [IsEnabled] of the second registry: the lookup is commented out. *)
Definition IsEnabled (sys : Daemon) (name : string) : Enable * option error :=
  (EnableOf (-1), Some ErrNotImplemented).

Definition Unit_ (sys : Daemon) (name : string) : ptr * option error :=
  match units sys !! name with
  | Some u => (u, None)
  | None => (nil, Some ErrNotFound)
  end.

Definition newUnit (sys : Daemon) (name : string) (v : Interface)
    : Daemon * ptr :=
  let u := fresh ({[nil]} ∪ dom (mem sys)) in
  let x := mkUnit name "" Unloaded v [] in
  let units1 := <[name := u]> (units sys) in
  (mkDaemon (<[u := x]> (mem sys))
     (if HasSuffix name ".service"
      then <[TrimSuffix name ".service" := u]> units1
      else units1)
     (paths sys), u).

Definition Supervise (sys : Daemon) (name : string) (v : Interface)
    : Daemon * ptr * option error :=
  match Unit_ sys name with
  | (_, None) => (sys, nil, Some ErrExists)
  | (_, Some _) => let '(sys, u) := newUnit sys name v in (sys, u, None)
  end.

Section registry.

(** [filepath.Join] and the file system are taken as given. *)
Variable Join : string → string → string.
Variable fs : FS.

(** [load], once a candidate has been opened: the unit registered under
    [name], or a new one of the kind the extension of [name] selects. *)
Definition load_unit (sys : Daemon) (name : string) : outcome (Daemon * ptr) :=
  match Unit_ sys name with
  | (u, None) => Ret (sys, u)
  | (_, Some _) =>
      k ← (if decide (Ext name = ".target") then Ret Target
           else if decide (Ext name = ".service") then Ret Service
           else Panic "Trying to load an unsupported unit type");
      Ret (newUnit sys name (mkInterface k no_def Inactive))
  end.

(** [load], from [u.path = path] to the return: the unit takes the path and
    is registered under it, the file is checked and handed to [Define]. *)
Definition load_file (sys : Daemon) (u : ptr) (path : string) (file : File)
    : outcome (Daemon * ptr * option error) :=
  x ← deref (mem sys) u;
  let x := mkUnit (u_name x) path (u_load x) (u_Interface x) (u_Log x) in
  let sys := mkDaemon (mem sys) (<[path := u]> (units sys)) (paths sys) in
  let err := match stat_err file with
             | Some e => Some e
             | None => if is_dir file then Some ErrIsDir else None
             end in
  match err with
  | Some e =>
      Ret (set_mem (<[u := Errorf_log (Error e) x]> (mem sys)) sys, u, Some e)
  | None =>
      match parse file with
      | DefineMulti msgs =>
          let x := foldl (λ x msg, Errorf_log msg x)
                     (Errorf_log "Definition is invalid:" x) msgs in
          Ret (set_mem (<[u := set_load LoadError x]> (mem sys)) sys,
               u, Some (MultiError msgs))
      | DefineErr msg =>
          let x := Errorf_log ("Error parsing definition: " ++ msg) x in
          Ret (set_mem (<[u := set_load LoadError x]> (mem sys)) sys,
               u, Some (ParseError msg))
      | DefineOk d =>
          let v := u_Interface x in
          let x := mkUnit (u_name x) (u_path x) Loaded
                     (mkInterface (i_kind v) d (i_active v)) (u_Log x) in
          Ret (set_mem (<[u := x]> (mem sys)) sys, u, close_err file)
      end
  end.

(** The loop of [load] over the candidate paths: a path that does not exist
    is passed over, any other path ends the search. *)
Fixpoint load_paths (sys : Daemon) (name : string) (ps : list string)
    : outcome (Daemon * ptr * option error) :=
  match ps with
  | [] => Ret (sys, nil, Some ErrNotFound)
  | path :: ps' =>
      match fs path with
      | NotExist => load_paths sys name ps'
      | OpenErr msg => Ret (sys, nil, Some (OsError msg))
      | Opened file =>
          '(sys, u) ← load_unit sys name;
          load_file sys u path file
      end
  end.

(** The candidate paths of [load], in the order they are opened. *)
Definition candidates (sys : Daemon) (name : string) : list string :=
  if IsAbs name then [name] else (λ path, Join path name) <$> paths sys.

Definition load (sys : Daemon) (name : string)
    : outcome (Daemon * ptr * option error) :=
  if negb (Supported name) then Ret (sys, nil, Some ErrUnknownType)
  else load_paths sys name (candidates sys name).

Definition Get (sys : Daemon) (name : string)
    : outcome (Daemon * ptr * option error) :=
  match Unit_ sys name with
  | (_, Some _) => load sys name
  | (u, None) =>
      x ← deref (mem sys) u;
      if negb (IsLoaded x) then load sys name else Ret (sys, u, None)
  end.

(** *** Transactions *)

Inductive jobType : Type := start | stop | restart | reload.

#[global] Instance jobType_eq_dec : EqDecision jobType.
Proof. solve_decision. Defined.

(** Modelled from the spec: the job and the transaction are declared in a
    file that is not part of the sources.  A job is a target unit, an
    operation, and the two flags mandatory and matters-on-failure; a
    transaction maps each unit to its single current job, the unmerged set
    (section 3). *)
Record job : Type := mkJob {
  j_typ : jobType;
  j_unit : ptr;
  j_mandatory : bool;
  j_matters : bool }.

Record transaction : Type := mkTransaction { unmerged : gmap ptr job }.

(** Modelled from the spec: the package function [newTransaction()]. *)
Definition newTransaction_ : transaction := mkTransaction ∅.

(** Modelled from the spec: the loops of [add] over the required and the
    wanted names of a new job, with the recursive call as a parameter.  A
    required name that cannot be resolved fails the add with
    DependencyFailure; a wanted name that cannot be resolved, or whose job
    cannot be added, is skipped (section 4.4). *)
Fixpoint add_requires
    (rec : Daemon → transaction → ptr → bool →
           outcome (Daemon * transaction * option error))
    (sys : Daemon) (tr : transaction) (names : list string)
    : outcome (Daemon * transaction * option error) :=
  match names with
  | [] => Ret (sys, tr, None)
  | name :: names' =>
      '(sys, dep, err) ← Get sys name;
      match err with
      | Some _ => Ret (sys, tr, Some ErrDepFail)
      | None =>
          '(sys, tr, err) ← rec sys tr dep true;
          match err with
          | Some e => Ret (sys, tr, Some e)
          | None => add_requires rec sys tr names'
          end
      end
  end.

Fixpoint add_wants
    (rec : Daemon → transaction → ptr → bool →
           outcome (Daemon * transaction * option error))
    (sys : Daemon) (tr : transaction) (names : list string)
    : outcome (Daemon * transaction) :=
  match names with
  | [] => Ret (sys, tr)
  | name :: names' =>
      '(sys, dep, err) ← Get sys name;
      match err with
      | Some _ => add_wants rec sys tr names'
      | None =>
          '(sys, tr, _) ← rec sys tr dep false;
          add_wants rec sys tr names'
      end
  end.

(** Modelled from the spec: [transaction.add(type, unit, requested-by,
    mandatory, matters)] is not part of the sources; this is the merge rule of
    section 4.4.  No job for the unit: insert one, then add the required
    dependencies as mandatory jobs and the wanted ones as best-effort jobs of
    the same type.  A job of the same type: nothing to do.  A job of another
    type: the new job replaces it if it is mandatory and the old one is not,
    otherwise the add fails with the transaction-conflict error.  One unit of
    [fuel] per nested call. *)
Fixpoint add (fuel : nat) (typ : jobType) (matters : bool) (sys : Daemon)
    (tr : transaction) (u : ptr) (mandatory : bool)
    : outcome (Daemon * transaction * option error) :=
  match fuel with
  | 0 => OutOfFuel
  | S fuel' =>
      match unmerged tr !! u with
      | Some j =>
          if decide (j_typ j = typ) then Ret (sys, tr, None)
          else if mandatory && negb (j_mandatory j)
               then Ret (sys, mkTransaction
                                (<[u := mkJob typ u mandatory matters]>
                                   (unmerged tr)), None)
               else Ret (sys, tr, Some ErrConflict)
      | None =>
          x ← deref (mem sys) u;
          let tr := mkTransaction (<[u := mkJob typ u mandatory matters]>
                                     (unmerged tr)) in
          '(sys, tr, err) ← add_requires (add fuel' typ matters) sys tr
                              (Requires (i_def (u_Interface x)));
          match err with
          | Some e => Ret (sys, tr, Some e)
          | None =>
              '(sys, tr) ← add_wants (add fuel' typ matters) sys tr
                             (Wants (i_def (u_Interface x)));
              Ret (sys, tr, None)
          end
      end
  end.

(** The sequence in which [range] walks the set built by [Units]. *)
Variable range_set : gset ptr → list ptr.

(** [Units]: every unit created, each once. *)
Definition Units (sys : Daemon) : list ptr :=
  range_set (map_img (units sys)).

(** [Daemon.newTransaction(typ, names)]; an error returns a nil
    transaction. *)
Fixpoint newTransaction_loop (fuel : nat) (typ : jobType) (sys : Daemon)
    (tr : transaction) (names : list string)
    : outcome (Daemon * option transaction * option error) :=
  match names with
  | [] => Ret (sys, Some tr, None)
  | name :: names' =>
      '(sys, dep, err) ← Get sys name;
      match err with
      | Some e => Ret (sys, None, Some e)
      | None =>
          '(sys, tr, err) ← add fuel typ true sys tr dep true;
          match err with
          | Some e => Ret (sys, None, Some e)
          | None => newTransaction_loop fuel typ sys tr names'
          end
      end
  end.

Definition newTransaction (fuel : nat) (typ : jobType) (sys : Daemon)
    (names : list string)
    : outcome (Daemon * option transaction * option error) :=
  newTransaction_loop fuel typ sys newTransaction_ names.

(** The loop of [Isolate] over [sys.Units()]. *)
Fixpoint Isolate_loop (fuel : nat) (sys : Daemon) (tr : transaction)
    (us : list ptr) : outcome (Daemon * transaction * option error) :=
  match us with
  | [] => Ret (sys, tr, None)
  | u :: us' =>
      if decide (is_Some (unmerged tr !! u)) then Isolate_loop fuel sys tr us'
      else
        '(sys, tr, err) ← add fuel stop true sys tr u true;
        match err with
        | Some e => Ret (sys, tr, Some e)
        | None => Isolate_loop fuel sys tr us'
        end
  end.

(** [Daemon.Isolate] up to the call of [tr.Run()]: the transaction that is
    handed to [Run], or the error that makes [Isolate] return before. *)
Definition Isolate_transaction (fuel : nat) (sys : Daemon)
    (names : list string)
    : outcome (Daemon * option transaction * option error) :=
  '(sys, tr, err) ← newTransaction fuel start sys names;
  match tr, err with
  | Some tr, None =>
      '(sys, tr, err) ← Isolate_loop fuel sys tr (Units sys);
      match err with
      | Some e => Ret (sys, None, Some e)
      | None => Ret (sys, Some tr, None)
      end
  | _, _ => Ret (sys, None, err)
  end.

(** [transaction.Run] is not part of the sources and is taken as given. *)
Variable Run : Daemon → transaction → outcome (Daemon * option error).

Definition Isolate (fuel : nat) (sys : Daemon) (names : list string)
    : outcome (Daemon * option error) :=
  '(sys, tr, err) ← Isolate_transaction fuel sys names;
  match tr with
  | Some tr => Run sys tr
  | None => Ret (sys, err)
  end.

End registry.

End Daemon2.
(** * Specification vocabulary *)

Close Scope string_scope.

Section vocabulary.

Import Daemon1.

(** [d] is in [g.before[u]]: [d] has to be ordered before [u]. *)
Definition runs_before (b : gmap ptr (gmap string ptr)) (u d : ptr) : Prop :=
  ∃ n, default ∅ (b !! u) !! n = Some d.

(** Every element of [L] has all it must follow at smaller indices. *)
Definition sorted_upto (b : gmap ptr (gmap string ptr)) (L : list ptr) : Prop :=
  ∀ i x d, L !! i = Some x → runs_before b x d → ∃ j, j < i ∧ L !! j = Some d.

(** The invariant of the depth-first traversal between two calls. *)
Record dfs_inv (b : gmap ptr (gmap string ptr)) (U : gset ptr) (g : graph)
    : Prop := {
  inv_before : before g = b;
  inv_nodup : NoDup (ordering g);
  inv_ordered : ∀ x, x ∈ ordered g ↔ x ∈ ordering g;
  inv_sorted : sorted_upto b (ordering g);
  inv_sub : ordered g ⊆ U }.

(** What a call [traverse(u)] that meets no cycle establishes. *)
Definition dfs_post (b : gmap ptr (gmap string ptr)) (U : gset ptr) (g : graph)
    (u : ptr) (r : outcome (graph * option error)) : Prop :=
  ∃ g', r = Ret (g', None) ∧ dfs_inv b U g' ∧ visited g' = visited g ∧
        u ∈ ordered g' ∧ ordered g ⊆ ordered g' ∧
        ∃ ext, ordering g' = ordering g ++ ext.

(** [g.before[v][n] = u]. *)
Definition entry (b : gmap ptr (gmap string ptr)) (v : ptr) (n : string)
    (u : ptr) : Prop :=
  default ∅ (b !! v) !! n = Some u.

(** Every entry of the graph maps a name to the unit [units] has for it. *)
Definition consistent (units : gmap string ptr)
    (b : gmap ptr (gmap string ptr)) : Prop :=
  ∀ v n u, entry b v n u → units !! n = Some u.

Definition same_defs (h h' : gmap ptr Unit) : Prop :=
  ∀ p, u_def <$> h' !! p = u_def <$> h !! p.

(** What one entry [e] of [units] contributes to the graph. *)
Definition contributes (units : gmap string ptr) (h : gmap ptr Unit)
    (e : string * ptr) (v : ptr) (n : string) (u : ptr) : Prop :=
  ∃ x, h !! e.2 = Some x ∧
    ((v = e.2 ∧ n ∈ After (u_def x) ∧ units !! n = Some u) ∨
     (n = e.1 ∧ u = e.2 ∧
      ∃ depname, depname ∈ Before (u_def x) ∧ units !! depname = Some v)).

(** A declared edge between two units of the request: [v] declares *after*
    a name of [u], or [u] declares *before* a name of [v]. *)
Definition declared_before (h : gmap ptr Unit) (units : gmap string ptr)
    (u v : ptr) : Prop :=
  ∃ nu nv, units !! nu = Some u ∧ units !! nv = Some v ∧
    ((∃ x, h !! v = Some x ∧ nu ∈ After (u_def x)) ∨
     (∃ x, h !! u = Some x ∧ nv ∈ Before (u_def x))).

(** [u] occurs in [L] at a smaller index than [v]. *)
Definition precedes (L : list ptr) (u v : ptr) : Prop :=
  ∃ i j, i < j ∧ L !! i = Some u ∧ L !! j = Some v.

(** A certificate that the declared edges have no cycle: a rank that grows
    along every one of them. *)
Definition declares (h : gmap ptr Unit) (nu : string) (u : ptr) (nv : string)
    (v : ptr) : bool :=
  match h !! v with
  | Some x => bool_decide (nu ∈ After (u_def x))
  | None => false
  end ||
  match h !! u with
  | Some x => bool_decide (nv ∈ Before (u_def x))
  | None => false
  end.

Definition edges_ranked (h : gmap ptr Unit) (units : gmap string ptr)
    (rank : ptr → nat) : bool :=
  forallb (λ eu, forallb (λ ev,
      implb (declares h eu.1 eu.2 ev.1 ev.2)
            (bool_decide (rank eu.2 < rank ev.2)))
    (map_to_list units)) (map_to_list units).

(** A request of three services: [a] declares *after* [b] and after a unit
    that is not part of the request, [b] declares *before* [c]. *)
Definition three_units : gmap string ptr :=
  <["a.service" := 1]> (<["b.service" := 2]> (<["c.service" := 3]> ∅)).

Definition three_store : gmap ptr Unit :=
  <[1 := mkUnit "/lib/a.service" Loaded ∅ Service
           (mkDef [] [] ["b.service"; "x.service"] [] []) []]>
  (<[2 := mkUnit "/lib/b.service" Loaded ∅ Service
            (mkDef [] [] [] ["c.service"] []) []]>
  (<[3 := mkUnit "/lib/c.service" Loaded ∅ Service no_def []]> ∅)).

(** The text of the error of [order] for the cycle in which [A] is picked
    first, comes after [B], and [B] comes after [A]. *)
Definition cycle_message (A B : string) : string :=
  ("Dependency cycle determined:" ++ nl ++ A ++ " depends on " ++ B ++ nl
   ++ B ++ " depends on " ++ A ++ nl)%string.

(** The text [msg] contains the name [n]. *)
Definition mentions (msg n : string) : Prop :=
  ∃ pre post, msg = (pre ++ n ++ post)%string.

(** Two loaded services, each declaring *after* the other. *)
Definition two_cycle : Daemon :=
  mkDaemon
    (<[1 := mkUnit "/lib/A.service" Loaded ∅ Service
             (mkDef [] [] ["B.service"] [] []) []]>
     (<[2 := mkUnit "/lib/B.service" Loaded ∅ Service
               (mkDef [] [] ["A.service"] [] []) []]> ∅))
    ∅
    (<["A.service" := 1]> (<["B.service" := 2]> ∅))
    (<["A.service" := 1]> (<["B.service" := 2]> ∅))
    (<[1 := "A.service"%string]> (<[2 := "B.service"%string]> ∅))
    ["/lib"%string].

End vocabulary.

(** The lines of the log scenarios. *)
Definition line_digits : bytes := bytes_of ("0123456789" ++ nl)%string.

Definition line_letters : bytes := bytes_of ("ABCDEFGHIJ" ++ nl)%string.

Definition line_more : bytes := bytes_of ("KLMNOPQRST" ++ nl)%string.

(** A line of 6000 bytes. *)
Definition long_line : bytes := replicate 5999 Byte.x61 ++ [newline].

(** The log of capacity 20 after the two writes of the round trip. *)
Definition log_letters : Log.t :=
  (Log.Writes (Log.NewLog 20) [line_digits; line_letters]).1.

(** The registries and file systems of the registry scenarios. *)
Section registry_vocabulary.

Import Daemon2.

Open Scope string_scope.

(** [filepath.Join] on a directory and a file name that need no cleaning. *)
Definition join (dir name : string) : string := dir ++ "/" ++ name.

(** A regular file with a well-formed, empty definition. *)
Definition plain_file : File := mkFile None false (DefineOk no_def) None.

(** A directory. *)
Definition directory : File := mkFile None true (DefineOk no_def) None.

Definition empty_fs : FS := λ _, NotExist.

(** [foo.service] is defined in the first search path. *)
Definition fs_service : FS := λ p,
  if decide (p = "/etc/systemd/system/foo.service") then Opened plain_file
  else NotExist.

(** [foo.target] is defined in the first search path. *)
Definition fs_target : FS := λ p,
  if decide (p = "/etc/systemd/system/foo.target") then Opened plain_file
  else NotExist.

(** [foo.service] is defined in the second search path only. *)
Definition fs_second : FS := λ p,
  if decide (p = "/lib/systemd/system/foo.service") then Opened plain_file
  else NotExist.

(** The first search path has a directory named [foo.service], the second
    a definition. *)
Definition fs_shadowed : FS := λ p,
  if decide (p = "/etc/systemd/system/foo.service") then Opened directory
  else if decide (p = "/lib/systemd/system/foo.service") then Opened plain_file
  else NotExist.

(** A registry without units. *)
Definition fresh_registry : Daemon :=
  mkDaemon ∅ ∅ ["/etc/systemd/system"; "/lib/systemd/system"].

(** The name resolves to no unit, or to one that is not loaded. *)
Definition not_loaded (sys : Daemon) (name : string) : Prop :=
  match units sys !! name with
  | None => True
  | Some u => ∃ x, mem sys !! u = Some x ∧ IsLoaded x = false
  end.

(** Every registered pointer is a unit of the store. *)
Definition registry_ok (sys : Daemon) : Prop :=
  ∀ n u, units sys !! n = Some u → is_Some (mem sys !! u).

(** A loaded service without dependencies. *)
Definition service_unit (name : string) (a : Activation) : Unit :=
  mkUnit name ("/etc/systemd/system/" ++ name) Loaded
    (mkInterface Service no_def a) [].

(** Three loaded services [A], [B], [C], each registered under its name, its
    alias and its path; [A] and [C] are active, [B] is in state [aB]. *)
Definition three_services (aB : Activation) : Daemon :=
  mkDaemon
    (<[1 := service_unit "A.service" Active]>
     (<[2 := service_unit "B.service" aB]>
     (<[3 := service_unit "C.service" Active]> ∅)))
    (<["A.service" := 1]> (<["A" := 1]>
     (<["/etc/systemd/system/A.service" := 1]>
     (<["B.service" := 2]> (<["B" := 2]>
     (<["/etc/systemd/system/B.service" := 2]>
     (<["C.service" := 3]> (<["C" := 3]>
     (<["/etc/systemd/system/C.service" := 3]> ∅)))))))))
    ["/etc/systemd/system"].

(** A start job for [A], stop jobs for [B] and [C]. *)
Definition isolate_A_jobs : gmap ptr job :=
  <[1 := mkJob start 1 true true]>
  (<[2 := mkJob stop 2 true true]>
  (<[3 := mkJob stop 3 true true]> ∅)).

End registry_vocabulary.

(** ** Further vocabulary *)

(** The slice of a buffer lies within its array and the read offset within
    the slice. *)
Definition Buffer_wf (b : Buffer.t) : Prop :=
  Buffer.off b ≤ length (Buffer.buf b) ∧
  length (Buffer.buf b) ≤ Buffer.cap b.

Definition Log_wf (l : Log.t) : Prop := Buffer_wf (Log.buffer l).

(** The content of the log: the unread bytes of its buffer. *)
Definition Log_content (l : Log.t) : bytes := Buffer.Bytes (Log.buffer l).

(** A call of the traversal that ends with an error, the graph having a
    cycle. *)
Definition dfs_cycle (b : gmap ptr (gmap string ptr))
    (r : outcome (Daemon1.graph * option error)) : Prop :=
  ∃ g' e, r = Ret (g', Some e) ∧ ∃ x, tc (runs_before b) x x.

(** The three services of [three_units], loaded and named. *)
Definition three_loaded : Daemon1.Daemon :=
  Daemon1.mkDaemon three_store ∅ three_units three_units
    (<[1 := "a.service"%string]> (<[2 := "b.service"%string]>
     (<[3 := "c.service"%string]> ∅)))
    ["/lib"%string].

(** A loaded service that wants a unit of a kind that is not supported. *)
Definition wanting : Daemon1.Daemon :=
  Daemon1.mkDaemon
    (<[1 := Daemon1.mkUnit "/lib/a.service" Loaded ∅ Service
              (mkDef [] ["x.mount"%string] [] [] []) []]> ∅)
    ∅ (<["a.service"%string := 1]> ∅) (<["a.service"%string := 1]> ∅)
    (<[1 := "a.service"%string]> ∅) ["/lib"%string].

(** [foo.service] is found in the second search path, with a definition
    that the parser rejects. *)
Definition fs_invalid : FS := λ p,
  if decide (p = "/lib/systemd/system/foo.service"%string)
  then Opened (mkFile None false
                 (DefineMulti ["line 3: unknown key"%string]) None)
  else NotExist.

(** Every path holds a regular file with a well-formed definition. *)
Definition fs_any : FS := λ _, Opened plain_file.



(** A registry in which every registered pointer is a unit of the store and
    nil is no unit. *)
Definition registry_wf (sys : Daemon2.Daemon) : Prop :=
  registry_ok sys ∧ Daemon2.mem sys !! nil = None.

(** A first registry in which nil is no unit, the parsed and the loaded
    names point to units of the store that have a name, and only units of
    the store have one. *)
Definition Daemon1_wf (sys : Daemon1.Daemon) : Prop :=
  Daemon1.mem sys !! nil = None ∧
  (∀ n u, Daemon1.parsed sys !! n = Some u ∨ Daemon1.loaded sys !! n = Some u →
          is_Some (Daemon1.mem sys !! u) ∧ is_Some (Daemon1.names sys !! u)) ∧
  (∀ u, is_Some (Daemon1.names sys !! u) → is_Some (Daemon1.mem sys !! u)).

(** * Theorems *)

(** ** [daemon.go]: the ordering of a request *)

Section ordering.

Import Daemon1.

Section dfs.
Variable range_before : ptr → gmap string ptr → list (string * ptr).
Hypothesis range_before_perm : ∀ u m, range_before u m ≡ₚ map_to_list m.
Variable b : gmap ptr (gmap string ptr).
Variable U : gset ptr.

Hypothesis closed : ∀ u d, u ∈ U → runs_before b u d → d ∈ U.
Hypothesis acyclic : ∀ u, ¬ tc (runs_before b) u u.

Lemma traverse_range_ok (trav : graph → ptr → outcome (graph * option error)) V
    (P : ptr → Prop) :
  (∀ g d, dfs_inv b U g → P d → visited g = V → dfs_post b U g d (trav g d)) →
  ∀ deps g, dfs_inv b U g → visited g = V → (∀ n d, (n, d) ∈ deps → P d) →
    ∃ g', traverse_range trav deps g = Ret (g', None) ∧ dfs_inv b U g' ∧
          visited g' = V ∧ ordered g ⊆ ordered g' ∧
          (∀ n d, (n, d) ∈ deps → d ∈ ordered g') ∧
          ∃ ext, ordering g' = ordering g ++ ext.
Proof.
  intros Htrav deps. induction deps as [|[n d] deps IH]; intros g Hinv HV HP.
  - exists g. split_and!; try done. { intros ?? H; inversion H. }
    exists []. by rewrite app_nil_r.
  - simpl. destruct (Htrav g d) as (g1 & Hr1 & Hinv1 & HV1 & Hd & Hsub & ext1 & Hext1);
      [done| |done|].
    { eapply HP. left. }
    rewrite Hr1.
    destruct (IH g1) as (g2 & Hr & Hinv2 & HV2 & Hsub2 & Hall & ext2 & Hext2);
      [done|congruence| |].
    { intros ?? ?. eapply HP. by right. }
    exists g2. split_and!; try done.
    + set_solver.
    + intros n' d' [Heq | Hin]%elem_of_cons; [| by eapply Hall].
      inversion Heq; subst. set_solver.
    + exists (ext1 ++ ext2). by rewrite Hext2, Hext1, app_assoc.
Qed.

Lemma traverse_S fuel g u :
  traverse range_before (S fuel) g u =
    if decide (u ∈ ordered g) then Ret (g, None)
    else if decide (u ∈ visited g) then Ret (g, Some errBlank)
    else
      match traverse_range (traverse range_before fuel)
              (range_before u (default ∅ (before g !! u)))
              (set_visited ({[u]} ∪ visited g) g) with
      | Ret (g2, None) =>
          if decide (u ∈ ordered g2) then Ret (set_visited (visited g2 ∖ {[u]}) g2, None)
          else Ret (mkGraph ({[u]} ∪ ordered g2) (visited g2 ∖ {[u]}) (before g2)
                      (ordering g2 ++ [u]), None)
      | other => other
      end.
Proof. reflexivity. Qed.

Lemma sorted_upto_snoc L u :
  sorted_upto b L → (∀ d, runs_before b u d → d ∈ L) → sorted_upto b (L ++ [u]).
Proof.
  intros HL Hu i x d Hi Hxd.
  destruct (decide (i < length L)) as [Hlt|Hge].
  - rewrite lookup_app_l in Hi by done.
    destruct (HL i x d Hi Hxd) as (j & Hj & Hjd).
    exists j. split; [done|]. rewrite lookup_app_l; [done|lia].
  - rewrite lookup_app_r in Hi by lia.
    destruct (i - length L) as [|k] eqn:Hk; simpl in Hi; [|done].
    injection Hi as <-. apply Hu, list_elem_of_lookup in Hxd as [j Hj].
    exists j. split; [apply lookup_lt_Some in Hj; lia|].
    by apply lookup_app_l_Some.
Qed.

Lemma traverse_ok fuel : ∀ g u,
  dfs_inv b U g → u ∈ U → visited g ⊆ U →
  (∀ v, v ∈ visited g → tc (runs_before b) v u) →
  size (U ∖ visited g) < fuel →
  dfs_post b U g u (traverse range_before fuel g u).
Proof.
  induction fuel as [|fuel IH]; intros g u Hinv Hu HVU Hstack Hfuel; [lia|].
  rewrite traverse_S. destruct (decide (u ∈ ordered g)) as [Hord|Hord].
  { exists g. split_and!; try done. exists []. by rewrite app_nil_r. }
  destruct (decide (u ∈ visited g)) as [Hvis|Hvis].
  { exfalso. eapply acyclic. by apply Hstack. }
  set (g1 := set_visited ({[u]} ∪ visited g) g).
  assert (Hinv1 : dfs_inv b U g1) by (destruct Hinv; by constructor).
  assert (Hdeps : ∀ n d, (n, d) ∈ range_before u (default ∅ (before g !! u)) ↔
                          default ∅ (b !! u) !! n = Some d).
  { intros n d. rewrite range_before_perm, elem_of_map_to_list.
    by rewrite (inv_before _ _ _ Hinv). }
  destruct (traverse_range_ok (traverse range_before fuel) (visited g1)
              (runs_before b u))
    with (deps := range_before u (default ∅ (before g !! u))) (g := g1)
    as (g2 & Hr & Hinv2 & HV2 & Hsub2 & Hall & ext2 & Hext2); try done.
  { intros g' d Hinv' Hd HV'. apply IH; try done.
    - by eapply closed.
    - rewrite HV'. simpl. set_solver.
    - rewrite HV'. simpl. intros v [->%elem_of_singleton | Hv]%elem_of_union.
      + by apply tc_once.
      + eapply tc_r; [by apply Hstack|done].
    - rewrite HV'. simpl.
      assert (U ∖ ({[u]} ∪ visited g) ⊂ U ∖ visited g) as Hlt%subset_size; [|lia].
      split; [set_solver|]. intros Hsub. specialize (Hsub u). set_solver. }
  { intros n d Hin. apply Hdeps in Hin. by exists n. }
  rewrite Hr.
  assert (Hvis2 : visited g2 ∖ {[u]} = visited g).
  { rewrite HV2. simpl. set_solver. }
  destruct (decide (u ∈ ordered g2)) as [Hord2|Hord2].
  - eexists. split; [done|]. split_and!; simpl; try done.
    + destruct Hinv2; by constructor.
    + exists ext2. by rewrite Hext2.
  - eexists. split; [done|]. split_and!; simpl; try done.
    + destruct Hinv2 as [Hb Hnd Ho Hs Hsu]. constructor; simpl; try done.
      * apply NoDup_app. split_and!; [done| |apply NoDup_singleton].
        intros x Hx ->%list_elem_of_singleton. by apply Hord2, Ho.
      * intros x. rewrite elem_of_union, elem_of_singleton, Ho, elem_of_app,
          list_elem_of_singleton. tauto.
      * apply sorted_upto_snoc; [done|]. intros d [n Hd].
        apply Ho. eapply Hall. by apply Hdeps.
      * set_solver.
    + set_solver.
    + set_solver.
    + exists (ext2 ++ [u]). rewrite Hext2. simpl. by rewrite app_assoc.
Qed.
End dfs.

Section build.
Variable units : gmap string ptr.

Lemma entry_add_before b v n d v' n' u' :
  entry (add_before b v n d) v' n' u' ↔
    (v' = v ∧ n' = n ∧ u' = d) ∨ (¬ (v' = v ∧ n' = n) ∧ entry b v' n' u').
Proof.
  unfold entry, add_before. destruct (decide (v' = v)) as [->|Hv].
  - rewrite lookup_insert_eq. simpl. destruct (decide (n' = n)) as [->|Hn].
    + rewrite lookup_insert_eq. naive_solver.
    + rewrite lookup_insert_ne by done. naive_solver.
  - rewrite lookup_insert_ne by done. naive_solver.
Qed.

Lemma order_init_entry l v n u : ¬ entry (foldl order_init ∅ l) v n u.
Proof.
  assert (∀ b, (∀ v n u, ¬ entry b v n u) → ∀ v n u, ¬ entry (foldl order_init b l) v n u) as H.
  { induction l as [|e l IH]; intros b Hb; [done|]. simpl. apply IH.
    intros v' n' u'. unfold entry, order_init.
    destruct (decide (v' = e.2)) as [->|Hne].
    - by rewrite lookup_insert_eq.
    - rewrite lookup_insert_ne by done. apply Hb. }
  apply H. intros v' n' u'. unfold entry. by rewrite lookup_empty.
Qed.

Lemma entry_add_consistent b v n d :
  consistent units b → units !! n = Some d →
  consistent units (add_before b v n d) ∧
  ∀ v' n' u', entry (add_before b v n d) v' n' u' ↔
    entry b v' n' u' ∨ (v' = v ∧ n' = n ∧ u' = d).
Proof.
  intros Hb Hd.
  assert (Hiff : ∀ v' n' u', entry (add_before b v n d) v' n' u' ↔
    entry b v' n' u' ∨ (v' = v ∧ n' = n ∧ u' = d)).
  { intros v' n' u'. rewrite entry_add_before. split; [naive_solver|].
    intros [H|H]; [|by left].
    destruct (decide (v' = v ∧ n' = n)) as [[-> ->]|Hne]; [|by right].
    left. split_and!; try done. pose proof (Hb _ _ _ H). congruence. }
  split; [|done]. intros v' n' u' [H|(-> & -> & ->)]%Hiff; [exact (Hb _ _ _ H)|done].
Qed.

Lemma order_after_spec unit l : ∀ b, consistent units b →
  consistent units (foldl (order_after units unit) b l) ∧
  ∀ v n u, entry (foldl (order_after units unit) b l) v n u ↔
    entry b v n u ∨ (v = unit ∧ n ∈ l ∧ units !! n = Some u).
Proof.
  induction l as [|dep l IH]; intros b Hb; simpl.
  - split; [done|]. intros v n u. rewrite elem_of_nil. tauto.
  - unfold order_after at 2 4. destruct (units !! dep) as [d|] eqn:Hd.
    + destruct (entry_add_consistent b unit dep d Hb Hd) as [Hb1 Hadd].
      destruct (IH _ Hb1) as [Hc Hspec]. split; [done|].
      intros v n u. rewrite Hspec, Hadd, elem_of_cons. naive_solver.
    + destruct (IH _ Hb) as [Hc Hspec]. split; [done|].
      intros v n u. rewrite Hspec, elem_of_cons. naive_solver.
Qed.

Lemma order_before_spec name unit l : units !! name = Some unit →
  ∀ b, consistent units b →
  consistent units (foldl (order_before units name unit) b l) ∧
  ∀ v n u, entry (foldl (order_before units name unit) b l) v n u ↔
    entry b v n u ∨
    (n = name ∧ u = unit ∧ ∃ depname, depname ∈ l ∧ units !! depname = Some v).
Proof.
  intros Hname. induction l as [|dep l IH]; intros b Hb; simpl.
  - split; [done|]. intros v n u. setoid_rewrite elem_of_nil. naive_solver.
  - unfold order_before at 2 4. destruct (units !! dep) as [d|] eqn:Hd.
    + destruct (entry_add_consistent b d name unit Hb Hname) as [Hb1 Hadd].
      destruct (IH _ Hb1) as [Hc Hspec]. split; [done|].
      intros v n u. rewrite Hspec, Hadd. setoid_rewrite elem_of_cons. naive_solver.
    + destruct (IH _ Hb) as [Hc Hspec]. split; [done|].
      intros v n u. rewrite Hspec. setoid_rewrite elem_of_cons. naive_solver.
Qed.

Lemma order_requires_defs unit l : ∀ h, same_defs h (foldl (order_requires units unit) h l).
Proof.
  induction l as [|dep l IH]; intros h; simpl; [done|].
  intros p. rewrite IH. unfold order_requires. rewrite lookup_alter.
  case_decide; [subst|done]. by destruct (h !! p).
Qed.

Lemma contributes_same_defs h h' e v n u :
  same_defs h h' → contributes units h' e v n u ↔ contributes units h e v n u.
Proof.
  intros Hs. unfold contributes. specialize (Hs e.2).
  destruct (h !! e.2) as [x|], (h' !! e.2) as [x'|]; simpl in Hs;
    try discriminate; [|naive_solver].
  injection Hs as Hs.
  split; intros (y & Hy & H); simplify_eq; eexists; (split; [done|]).
  - by rewrite <- Hs.
  - by rewrite Hs.
Qed.

Lemma order_edges_spec l : ∀ b h,
  consistent units b →
  (∀ e, e ∈ l → units !! e.1 = Some e.2 ∧ is_Some (h !! e.2)) →
  ∃ b' h', foldl (order_edges units) (Ret (b, h)) l = Ret (b', h') ∧
    consistent units b' ∧ same_defs h h' ∧
    ∀ v n u, entry b' v n u ↔ entry b v n u ∨ ∃ e, e ∈ l ∧ contributes units h e v n u.
Proof.
  induction l as [|e l IH]; intros b h Hb Hl.
  - exists b, h. split_and!; try done. intros v n u. setoid_rewrite elem_of_nil. naive_solver.
  - destruct (Hl e) as [Hname [x Hx]]; [left|]. simpl.
    unfold deref. rewrite Hx. simpl.
    destruct (order_after_spec e.2 (After (u_def x)) b Hb) as [Hb1 Ha].
    destruct (order_before_spec e.1 e.2 (Before (u_def x)) Hname _ Hb1) as [Hb2 Hbf].
    pose proof (order_requires_defs e.2 (Requires (u_def x)) h) as Hsame.
    edestruct (IH _ (foldl (order_requires units e.2) h (Requires (u_def x))) Hb2)
      as (b' & h' & -> & Hc & Hs & Hspec).
    { intros e' He'. destruct (Hl e') as [? [x' Hx']]; [by right|]. split; [done|].
      specialize (Hsame e'.2). rewrite Hx' in Hsame.
      destruct (foldl _ h _ !! e'.2); [done|by simplify_eq/=]. }
    exists b', h'. split_and!; try done.
    { intros p. by rewrite Hs, Hsame. }
    intros v n u. rewrite Hspec, Hbf, Ha.
    setoid_rewrite elem_of_cons.
    setoid_rewrite (contributes_same_defs _ _ _ _ _ _ Hsame).
    unfold contributes at 2. split.
    + intros [[[H|H]|H]|(e' & He' & H)]; [by left|right; exists e|right; exists e|right; exists e'].
      * split; [by left|]. exists x. naive_solver.
      * split; [by left|]. exists x. naive_solver.
      * by split; [right|].
    + intros [H|(e' & [->|He'] & H)]; [by do 3 left| |right; eauto].
      destruct H as (x' & Hx' & H). simplify_eq. left. naive_solver.
Qed.
End build.

Lemma tc_flip {A} (R : relation A) x y : tc (flip R) x y → tc R y x.
Proof.
  induction 1 as [x y H|x y z H _ IH]; [by apply tc_once|].
  eapply tc_r; [exact IH|exact H].
Qed.

Lemma size_map_img (units : gmap string ptr) :
  size (map_img (SA:=gset ptr) units) ≤ size units.
Proof.
  induction units as [|n u m Hn IH] using map_ind.
  - by rewrite map_img_empty_L, size_empty, map_size_empty.
  - rewrite map_img_insert_notin_L, map_size_insert_None by done.
    rewrite size_union_alt, size_singleton.
    assert (size (map_img (SA:=gset ptr) m ∖ {[u]}) ≤ size (map_img (SA:=gset ptr) m))
      by (apply subseteq_size; set_solver).
    lia.
Qed.

Lemma order_dfs_ok range_before b U fuel :
  (∀ u m, range_before u m ≡ₚ map_to_list m) →
  (∀ u d, u ∈ U → runs_before b u d → d ∈ U) →
  (∀ u, ¬ tc (runs_before b) u u) →
  size U < fuel →
  ∀ todo g, dfs_inv b U g → visited g = ∅ → (∀ e, e ∈ todo → e.2 ∈ U) →
    ∃ g', order_dfs range_before fuel todo g = Ret (ordering g', None) ∧
          dfs_inv b U g' ∧ ordered g ⊆ ordered g' ∧
          ∀ e, e ∈ todo → e.2 ∈ ordered g'.
Proof.
  intros Hperm Hclosed Hacyc Hfuel todo.
  induction todo as [|[name unit] todo IH]; intros g Hinv HV HU.
  - exists g. split_and!; try done. intros e []%elem_of_nil.
  - simpl. destruct (traverse_ok range_before Hperm b U Hclosed Hacyc fuel g unit)
      as (g1 & -> & Hinv1 & HV1 & Hu1 & Hsub1 & _); try done.
    + apply (HU (name, unit)). left.
    + rewrite HV. set_solver.
    + rewrite HV. set_solver.
    + rewrite HV. by replace (U ∖ ∅) with U by set_solver.
    + simpl. destruct (IH g1) as (g2 & -> & Hinv2 & Hsub2 & Hall); try done.
      { congruence. } { intros e He. apply HU. by right. }
      exists g2. split_and!; try done; [set_solver|].
      intros e [->|He]%elem_of_cons; [set_solver|by apply Hall].
Qed.

(** C1.  The units of the request are units of the store and their declared
    edges, restricted to the request, have no cycle.  Then [order] returns,
    in whatever order the maps are walked, a sequence without repetition that
    holds exactly the units of the request and in which [u] stands before [v]
    for every declared edge from [u] to [v]; names declared *after* or
    *before* that are not part of the request play no part. *)
Theorem order_respects_declared_edges range_before range_units h units :
  (∀ u, enumerates (range_before u)) →
  (∀ i, enumerates (range_units i)) →
  (∀ n u, units !! n = Some u → is_Some (h !! u)) →
  (∀ u, ¬ tc (declared_before h units) u u) →
  ∃ h' L, order range_before range_units h units = Ret (h', (L, None)) ∧
    NoDup L ∧
    (∀ u, u ∈ L ↔ ∃ n, units !! n = Some u) ∧
    (∀ u v, declared_before h units u v → precedes L u v).
Proof.
  intros Hrb Hru Hvalid Hacyc. unfold order.
  assert (Hin : ∀ i e, e ∈ range_units i units ↔ units !! e.1 = Some e.2).
  { intros i [n u]. by rewrite (Hru i units), elem_of_map_to_list. }
  destruct (order_edges_spec units (range_units 1 units)
              (foldl order_init ∅ (range_units 0 units)) h)
    as (b & h' & -> & Hcons & Hsame & Hspec).
  { intros v n u H. by apply order_init_entry in H. }
  { intros e He%Hin. split; [done|]. by eapply Hvalid. }
  simpl.
  assert (Hedge : ∀ v u, runs_before b v u ↔ declared_before h units u v).
  { intros v u. unfold runs_before. split.
    - intros [n [H|([nv v'] & He%Hin & x & Hx & H)]%Hspec];
        [by apply order_init_entry in H|]. simpl in *.
      destruct H as [(-> & Hn & Hu)|(-> & -> & depname & Hd & Hv)].
      + exists n, nv. eauto 10.
      + exists nv, depname. eauto 10.
    - intros (nu & nv & Hu & Hv & [(x & Hx & H)|(x & Hx & H)]).
      + exists nu. apply Hspec. right. exists (nv, v). rewrite Hin. split; [done|].
        exists x. simpl. eauto.
      + exists nu. apply Hspec. right. exists (nu, u). rewrite Hin. split; [done|].
        exists x. simpl. eauto 10. }
  set (U := map_img (SA:=gset ptr) units).
  destruct (order_dfs_ok range_before b U (S (size units)))
    with (todo := range_units 2 units) (g := mkGraph ∅ ∅ b [])
    as (g' & -> & Hinv & _ & Hall); try done.
  - intros v u Hv (nu & _ & Hu & _)%Hedge. by eapply elem_of_map_img_2.
  - intros u Hc. apply (Hacyc u), tc_flip.
    eapply tc_congruence with (f := id); [|exact Hc]. intros ??. apply Hedge.
  - pose proof (size_map_img units). unfold U. lia.
  - constructor; simpl;
      [done|apply NoDup_nil_2|set_solver|intros i x d Hi; by rewrite lookup_nil in Hi|done].
  - intros [n u] He%Hin. by eapply elem_of_map_img_2.
  - simpl. exists h', (ordering g'). split; [done|]. destruct Hinv as [Hb Hnd Ho Hs Hsu].
    split_and!; [done| |].
    + intros u. rewrite <- Ho. split.
      * intros Hu%Hsu. by apply elem_of_map_img in Hu.
      * intros [n Hu]. apply (Hall (n, u)). by apply Hin.
    + intros u v Huv. pose proof Huv as (nu & nv & Hu & Hv & _).
      assert (v ∈ ordering g') as [j Hj]%list_elem_of_lookup.
      { apply Ho, (Hall (nv, v)). by apply Hin. }
      destruct (Hs j v u Hj) as (i & Hi & Hiu); [by apply Hedge|].
      by exists i, j.
Qed.

Lemma edges_ranked_acyclic h units rank :
  edges_ranked h units rank = true → ∀ u, ¬ tc (declared_before h units) u u.
Proof.
  intros Hr.
  assert (Hstep : ∀ u v, declared_before h units u v → rank u < rank v).
  { intros u v (nu & nv & Hu & Hv & H).
    unfold edges_ranked in Hr. rewrite forallb_forall in Hr.
    apply elem_of_map_to_list, list_elem_of_In in Hu, Hv.
    specialize (Hr _ Hu). rewrite forallb_forall in Hr. specialize (Hr _ Hv).
    simpl in Hr. unfold declares in Hr.
    destruct H as [(x & Hx & Hn)|(x & Hx & Hn)]; rewrite Hx in Hr.
    - rewrite (bool_decide_eq_true_2 _ Hn) in Hr. simpl in Hr.
      by apply bool_decide_eq_true_1 in Hr.
    - rewrite (bool_decide_eq_true_2 _ Hn), orb_true_r in Hr. simpl in Hr.
      by apply bool_decide_eq_true_1 in Hr. }
  assert (Htc : ∀ u v, tc (declared_before h units) u v → rank u < rank v).
  { induction 1 as [u v H|u v w H _ IH]; [by apply Hstep|].
    apply Hstep in H. lia. }
  intros u Hu%Htc. lia.
Qed.

Lemma order_respects_declared_edges_witness :
  ∃ h' L,
    order (λ _ m, map_to_list m) (λ _ m, map_to_list m) three_store three_units
      = Ret (h', (L, None)) ∧
    NoDup L ∧
    (∀ u, u ∈ L ↔ ∃ n, three_units !! n = Some u) ∧
    (∀ u v, declared_before three_store three_units u v → precedes L u v).
Proof.
  apply order_respects_declared_edges.
  - intros u m. reflexivity.
  - intros i m. reflexivity.
  - change (map_Forall (λ _ u, is_Some (three_store !! u)) three_units).
    apply (bool_decide_unpack _). vm_compute. exact I.
  - apply edges_ranked_acyclic with (rank := λ u, if decide (u = 2) then 0 else 1).
    vm_compute. reflexivity.
Defined.

(** *** A request of two units that come after each other *)

Lemma Get_loaded Join fs sys n u :
  loaded sys !! n = Some u → Get Join fs sys n = Ret (sys, u, None).
Proof. unfold Get. by intros ->. Qed.

Lemma loadDeps_wants_within Join fs sys (full : gmap string ptr) l :
  full ⊆ loaded sys → Forall (λ n, is_Some (full !! n)) l →
  ∀ units, units ⊆ full →
  ∃ units', foldl (loadDeps_wants Join fs) (Ret (sys, units)) l
              = Ret (sys, units') ∧ units ⊆ units' ∧ units' ⊆ full.
Proof.
  intros Hfull. induction 1 as [|n l [u Hn] _ IH]; intros units Hsub; simpl.
  - by exists units.
  - destruct (decide (is_Some (units !! n))) as [_|Hnew]; [by apply IH|].
    rewrite (Get_loaded Join fs sys n u)
      by (eapply lookup_weaken; [exact Hn|exact Hfull]). simpl.
    destruct (IH (<[n := u]> units)) as (units' & -> & H1 & H2).
    { by apply insert_subseteq_l. }
    exists units'. split_and!; [done| |done].
    etrans; [|exact H1]. apply insert_subseteq.
    by apply eq_None_not_Some.
Qed.

Lemma loadDeps_loop_within Join fs sys (full : gmap string ptr) R :
  full ⊆ loaded sys →
  (∀ n u, full !! n = Some u →
     ∃ x, mem sys !! u = Some x ∧ length (Requires (u_def x)) ≤ R ∧
          Forall (λ m, is_Some (full !! m)) (Requires (u_def x)) ∧
          Forall (λ m, is_Some (full !! m)) (Wants (u_def x))) →
  ∀ fuel names units,
    Forall (λ n, is_Some (full !! n)) names → units ⊆ full →
    length names + (size full - size units) * R ≤ fuel →
    ∃ units', loadDeps_loop Join fs fuel sys units names
                = Ret (sys, units', None) ∧
              units ⊆ units' ∧ units' ⊆ full ∧
              Forall (λ n, is_Some (units' !! n)) names.
Proof.
  intros Hfull Hdefs. induction fuel as [|fuel IH]; intros names units Hnames Hsub Hfuel.
  - destruct names; [|simpl in Hfuel; nia]. by exists units.
  - destruct names as [|n names]; [by exists units|]. simpl.
    apply Forall_cons in Hnames as [[u Hn] Hnames].
    destruct (decide (is_Some (units !! n))) as [Hadded|Hnew].
    + destruct (IH names units) as (units' & -> & H1 & H2 & H3); [done..|simpl in Hfuel; nia|].
      exists units'. split_and!; [done..|]. apply Forall_cons. split; [|done].
      destruct Hadded as [u' Hu']. exists u'. by eapply lookup_weaken.
    + rewrite (Get_loaded Join fs sys n u)
        by (eapply lookup_weaken; [exact Hn|exact Hfull]). simpl.
      destruct (Hdefs n u Hn) as (x & Hx & HR & Hreq & Hwants).
      unfold deref. rewrite Hx. simpl.
      apply eq_None_not_Some in Hnew.
      assert (Hsub1 : <[n := u]> units ⊆ full) by by apply insert_subseteq_l.
      destruct (loadDeps_wants_within Join fs sys full _ Hfull Hwants _ Hsub1)
        as (units1 & -> & H1 & H2). simpl.
      assert (Hsize : size units < size units1).
      { apply (Nat.lt_le_trans _ (size (<[n := u]> units)));
          [rewrite map_size_insert_None by done; lia|by apply map_subseteq_size]. }
      assert (size units1 ≤ size full) by by apply map_subseteq_size.
      destruct (IH (names ++ Requires (u_def x)) units1)
        as (units' & -> & H3 & H4 & H5); [by apply Forall_app|done| |].
      { rewrite length_app. simpl in Hfuel. nia. }
      exists units'. split_and!; [done| |done|].
      * etrans; [apply (insert_subseteq _ n u); done|]. by etrans.
      * apply Forall_cons. split; [|by apply Forall_app in H5 as [? _]].
        exists u. eapply lookup_weaken; [|exact H3].
        eapply lookup_weaken; [apply lookup_insert_eq|exact H1].
Qed.

Lemma range_singleton (rng : gmap string ptr → list (string * ptr)) n u :
  enumerates rng → rng {[n := u]} = [(n, u)].
Proof.
  intros Hrng. apply Permutation_singleton_r.
  by rewrite (Hrng _), map_to_list_singleton.
Qed.

Lemma traverse_two_cycle range_before bg A B a b fuel :
  (∀ u, enumerates (range_before u)) → a ≠ b →
  default ∅ (bg !! a) = {[B := b]} → default ∅ (bg !! b) = {[A := a]} →
  ∃ g', traverse range_before (S (S (S fuel))) (mkGraph ∅ ∅ bg []) a
          = Ret (g', Some (Errorf (B ++ nl ++ B ++ " depends on " ++ A ++ nl)%string)).
Proof.
  intros Hrb Hab Ha Hb.
  rewrite traverse_S. cbn [ordered visited before set_visited].
  rewrite !decide_False by set_solver.
  rewrite Ha, (range_singleton _ _ _ (Hrb a)). cbn [traverse_range].
  rewrite traverse_S. cbn [ordered visited before set_visited].
  rewrite !decide_False by set_solver.
  rewrite Hb, (range_singleton _ _ _ (Hrb b)). cbn [traverse_range].
  rewrite traverse_S. cbn [ordered visited before set_visited].
  rewrite decide_False by set_solver. rewrite decide_True by set_solver.
  destruct (decide (errBlank = errBlank)); [|done].
  rewrite decide_False by done. eexists. reflexivity.
Qed.

Lemma lookup_pair (A B : string) (a b : ptr) n u :
  A ≠ B →
  (<[A := a]> {[B := b]} : gmap string ptr) !! n = Some u ↔
    (n = A ∧ u = a) ∨ (n = B ∧ u = b).
Proof.
  intros HAB. rewrite lookup_insert. case_decide as HA.
  - subst n. split; [intros [= <-]; by left|]. by intros [[_ ->]|[? _]].
  - rewrite lookup_singleton. case_decide as HB.
    + subst n. split; [intros [= <-]; by right|]. by intros [[? _]|[_ ->]].
    + split; [done|]. by intros [[? _]|[? _]].
Qed.

(** The graph that [order] builds for two units that come after each
    other. *)
Lemma two_cycle_graph range_units h A B a b xa xb :
  (∀ i, enumerates (range_units i)) → A ≠ B →
  h !! a = Some xa → h !! b = Some xb →
  B ∈ After (u_def xa) → A ∈ After (u_def xb) →
  A ∉ After (u_def xa) → B ∉ After (u_def xb) →
  A ∉ Before (u_def xa) → B ∉ Before (u_def xb) →
  ∃ bg h',
    foldl (order_edges (<[A := a]> {[B := b]}))
      (Ret (foldl order_init ∅ (range_units 0 (<[A := a]> {[B := b]})), h))
      (range_units 1 (<[A := a]> {[B := b]})) = Ret (bg, h') ∧
    a ≠ b ∧
    default ∅ (bg !! a) = {[B := b]} ∧ default ∅ (bg !! b) = {[A := a]}.
Proof.
  intros Hru HAB Hxa Hxb HaB HbA HaA HbB HbfA HbfB.
  set (full := <[A := a]> {[B := b]} : gmap string ptr).
  assert (Hab : a ≠ b) by (intros ->; congruence).
  assert (Hin : ∀ e, e ∈ range_units 1 full ↔ e = (A, a) ∨ e = (B, b)).
  { intros [n u]. rewrite (Hru 1 full), elem_of_map_to_list.
    unfold full. rewrite lookup_pair by done. naive_solver. }
  destruct (order_edges_spec full (range_units 1 full)
              (foldl order_init ∅ (range_units 0 full)) h)
    as (bg & h' & Hfold & _ & _ & Hspec).
  { intros v n u H. by apply order_init_entry in H. }
  { intros e [->| ->]%Hin; simpl; (split; [by apply lookup_pair; auto|eauto]). }
  exists bg, h'. split; [exact Hfold|]. split; [done|].
  assert (Hentry : ∀ v n u, entry bg v n u ↔
            (v = a ∧ n = B ∧ u = b) ∨ (v = b ∧ n = A ∧ u = a)).
  { intros v n u. rewrite Hspec. split.
    - intros [H|(e & He%Hin & x & Hx & H)]; [by apply order_init_entry in H|].
      destruct He as [-> | ->]; simpl in *; simplify_eq.
      + destruct H as [(-> & Hn & [[-> ->]|[-> ->]]%lookup_pair)
                      |(-> & -> & d & Hd & [[-> ->]|[-> ->]]%lookup_pair)];
          try done; auto.
      + destruct H as [(-> & Hn & [[-> ->]|[-> ->]]%lookup_pair)
                      |(-> & -> & d & Hd & [[-> ->]|[-> ->]]%lookup_pair)];
          try done; auto.
    - intros [(-> & -> & ->)|(-> & -> & ->)]; right.
      + exists (A, a). split; [apply Hin; by left|]. exists xa. simpl.
        split; [done|]. left. split_and!; [done..|]. apply lookup_pair; auto.
      + exists (B, b). split; [apply Hin; by right|]. exists xb. simpl.
        split; [done|]. left. split_and!; [done..|]. apply lookup_pair; auto. }
  split; apply map_eq; intros n; apply option_eq; intros u;
    rewrite lookup_singleton; (etrans; [apply Hentry|]).
  - case_decide; naive_solver.
  - case_decide; naive_solver.
Qed.

Lemma append_assoc (s1 s2 s3 : string) :
  ((s1 ++ s2) ++ s3 = s1 ++ (s2 ++ s3))%string.
Proof.
  induction s1 as [|c s1 IH]; [done|].
  change (String c ((s1 ++ s2) ++ s3) = String c (s1 ++ (s2 ++ s3)))%string.
  by rewrite IH.
Qed.

Lemma mentions_cycle_message A B :
  mentions (cycle_message A B) A ∧ mentions (cycle_message A B) B.
Proof.
  unfold mentions, cycle_message. split.
  - exists ("Dependency cycle determined:" ++ nl)%string,
      (" depends on " ++ B ++ nl ++ B ++ " depends on " ++ A ++ nl)%string.
    by rewrite !append_assoc.
  - exists ("Dependency cycle determined:" ++ nl ++ A ++ " depends on ")%string,
      (nl ++ B ++ " depends on " ++ A ++ nl)%string.
    by rewrite !append_assoc.
Qed.

(** C2.  [A] and [B] are loaded units, [A] declares *after* [B] and [B]
    declares *after* [A], neither is ordered against itself, and what they
    require or want is among the two.  Then [Start(A, B)] returns the error
    of [order], whose text names [A] and [B], whichever unit the traversal
    picks first; no [Start] of a unit has been launched and the map of
    active units is as before. *)
Theorem Start_aborts_on_two_unit_cycle range_before range_units Join fs sys
    A B a b xa xb fuel :
  (∀ u, enumerates (range_before u)) →
  (∀ i, enumerates (range_units i)) →
  A ≠ B →
  loaded sys !! A = Some a → loaded sys !! B = Some b →
  mem sys !! a = Some xa → mem sys !! b = Some xb →
  B ∈ After (u_def xa) → A ∈ After (u_def xb) →
  A ∉ After (u_def xa) → B ∉ After (u_def xb) →
  A ∉ Before (u_def xa) → B ∉ Before (u_def xb) →
  Forall (λ n, n = A ∨ n = B)
    (Requires (u_def xa) ++ Wants (u_def xa) ++
     Requires (u_def xb) ++ Wants (u_def xb)) →
  2 + 2 * (length (Requires (u_def xa)) + length (Requires (u_def xb))) ≤ fuel →
  ∃ sys' msg,
    Start range_before range_units Join fs fuel sys [A; B]
      = Ret (sys', [], Some (Errorf msg)) ∧
    (msg = cycle_message A B ∨ msg = cycle_message B A) ∧
    mentions msg A ∧ mentions msg B ∧
    active sys' = active sys.
Proof.
  intros Hrb Hru HAB HlA HlB Hxa Hxb HaB HbA HaA HbB HbfA HbfB Hdeps Hfuel.
  set (full := <[A := a]> {[B := b]} : gmap string ptr).
  apply Forall_app in Hdeps as [HRa [HWa [HRb HWb]%Forall_app]%Forall_app].
  assert (Hfull : full ⊆ loaded sys).
  { apply map_subseteq_spec. by intros n u [[-> ->]|[-> ->]]%lookup_pair. }
  assert (Hsome : ∀ l, Forall (λ n, n = A ∨ n = B) l →
                       Forall (λ n, is_Some (full !! n)) l).
  { intros l Hl. eapply Forall_impl; [exact Hl|].
    intros n [-> | ->]; eexists; apply lookup_pair; auto. }
  unfold Start, loadDeps.
  assert (Hdefs : ∀ n u, full !! n = Some u →
     ∃ x, mem sys !! u = Some x ∧
          length (Requires (u_def x))
            ≤ length (Requires (u_def xa)) + length (Requires (u_def xb)) ∧
          Forall (λ m, is_Some (full !! m)) (Requires (u_def x)) ∧
          Forall (λ m, is_Some (full !! m)) (Wants (u_def x))).
  { intros n u [[-> ->]|[-> ->]]%lookup_pair; [exists xa|exists xb| ];
      [split_and!; [done|lia|by apply Hsome..]..|done]. }
  assert (Hsize : size full = 2).
  { unfold full. by rewrite map_size_insert_None, map_size_singleton
      by (by rewrite lookup_singleton_ne). }
  assert (Hdone : ∃ units', loadDeps_loop Join fs fuel sys ∅ [A; B]
                              = Ret (sys, units', None) ∧
                            (∅ : gmap string ptr) ⊆ units' ∧ units' ⊆ full ∧
                            Forall (λ n, is_Some (units' !! n)) [A; B]).
  { apply (loadDeps_loop_within Join fs sys full _ Hfull Hdefs).
    - apply Hsome. auto.
    - apply map_empty_subseteq.
    - rewrite map_size_empty, Hsize. simpl. lia. }
  destruct Hdone as (units' & -> & _ & Hsub & Hall).
  assert (units' = full) as ->.
  { apply map_eq. intros n. apply option_eq. intros u. split.
    - intros H. by eapply lookup_weaken.
    - intros H. assert (is_Some (units' !! n)) as [u' Hu'].
      { apply Forall_cons in Hall as [HA [HB _]%Forall_cons].
        by apply lookup_pair in H as [[-> _]|[-> _]]. }
      rewrite Hu'. f_equal. pose proof (lookup_weaken _ _ _ _ Hu' Hsub).
      congruence. }
  simpl. unfold order.
  destruct (two_cycle_graph range_units (mem sys) A B a b xa xb)
    as (bg & h' & Hfold & Hab & Hga & Hgb); [done..|].
  fold full in Hfold. rewrite Hfold. simpl.
  rewrite Hsize.
  assert (Hfirst : ∃ rest, range_units 2 full = (A, a) :: rest ∨
                           range_units 2 full = (B, b) :: rest).
  { pose proof (Hru 2 full) as Hperm.
    destruct (range_units 2 full) as [|[n u] rest].
    - assert ((A, a) ∈ map_to_list full) as Hin
        by (apply elem_of_map_to_list, lookup_pair; auto).
      rewrite <- Hperm in Hin. by apply elem_of_nil in Hin.
    - exists rest. assert ((n, u) ∈ map_to_list full) as Hin
        by (rewrite <- Hperm; left).
      apply elem_of_map_to_list, lookup_pair in Hin as [[-> ->]|[-> ->]];
        auto. }
  destruct Hfirst as (rest & [-> | ->]); cbn [order_dfs].
  - destruct (traverse_two_cycle range_before bg A B a b 0 Hrb Hab Hga Hgb)
      as (g' & ->). simpl.
    eexists _, _. split; [reflexivity|]. split; [by left|].
    split_and!; [apply mentions_cycle_message..|done].
  - destruct (traverse_two_cycle range_before bg B A b a 0 Hrb) as (g' & ->);
      [done..|]. simpl.
    eexists _, _. split; [reflexivity|]. split; [by right|].
    split_and!; [apply mentions_cycle_message..|done].
Qed.

Lemma Start_aborts_on_two_unit_cycle_witness :
  ∃ sys' msg,
    Start (λ _ m, map_to_list m) (λ _ m, map_to_list m) join empty_fs 2
      two_cycle ["A.service"; "B.service"]%string
      = Ret (sys', [], Some (Errorf msg)) ∧
    (msg = cycle_message "A.service" "B.service" ∨
     msg = cycle_message "B.service" "A.service") ∧
    mentions msg "A.service" ∧ mentions msg "B.service" ∧
    active sys' = active two_cycle.
Proof.
  apply (Start_aborts_on_two_unit_cycle _ _ join empty_fs two_cycle
           "A.service" "B.service" 1 2
           (mkUnit "/lib/A.service" Loaded ∅ Service
              (mkDef [] [] ["B.service"%string] [] []) [])
           (mkUnit "/lib/B.service" Loaded ∅ Service
              (mkDef [] [] ["A.service"%string] [] []) []) 2).
  - intros u m. reflexivity.
  - intros i m. reflexivity.
  - discriminate.
  - reflexivity.
  - reflexivity.
  - reflexivity.
  - reflexivity.
  - simpl. apply list_elem_of_singleton. reflexivity.
  - simpl. apply list_elem_of_singleton. reflexivity.
  - simpl. intros H. apply list_elem_of_singleton in H. discriminate.
  - simpl. intros H. apply list_elem_of_singleton in H. discriminate.
  - simpl. intros H. apply elem_of_nil in H. exact H.
  - simpl. intros H. apply elem_of_nil in H. exact H.
  - simpl. constructor.
  - simpl. lia.
Defined.

End ordering.

(** ** [log.go]: the bounded log *)

Section log_facts.

(** C4. On a log of capacity 20 the write of ["0123456789\n"] fits; the write
    of ["ABCDEFGHIJ\n"] does not: it reads [11 - 20 + 11 = 2] bytes off the
    head, appends the 11 bytes, and the deferred [ReadString] then drops the
    rest of the first line through its terminator.  The buffer holds exactly
    ["ABCDEFGHIJ\n"]. *)
Theorem Log_Write_evicts_whole_first_line :
  let '(l1, n1, e1) := Log.Write (Log.NewLog 20) line_digits in
  let '(l2, n2, e2) := Log.Write l1 line_letters in
  let '(b1, d1, r1) := Buffer.Read (Log.buffer l1) 2 in
  let '(b2, _, w2) := Buffer.Write b1 line_letters in
  let '(b3, d3, r3) := Buffer.ReadString b2 newline in
  (n1, e1) = (11, None) ∧ Buffer.Bytes (Log.buffer l1) = line_digits ∧
  Z.to_nat (Z.of_nat (length line_letters) - Z.of_nat (Log.Cap l1)
            + Z.of_nat (Log.Len l1)) = 2 ∧
  d1 = bytes_of "01" ∧ r1 = None ∧
  Buffer.Bytes b2 = bytes_of ("23456789" ++ nl ++ "ABCDEFGHIJ" ++ nl)%string ∧
  d3 = bytes_of ("23456789" ++ nl)%string ∧ r3 = None ∧
  Log.buffer l2 = b3 ∧
  (n2, e2) = (11, None) ∧
  Buffer.Bytes (Log.buffer l2) = line_letters ∧ Log.Len l2 = 11.
Proof. vm_compute. repeat split. Qed.

(** C5. The bound of [Write] is [Cap()], the capacity of the backing array,
    and the append of the eviction branch makes [bytes.Buffer] move to a
    larger array.  After the two writes of the round trip the capacity is 51,
    so a third line of 11 bytes is appended directly and the log of capacity
    20 holds 22 bytes; a log of [BUFFER_SIZE] bytes holds 12000 bytes after
    three lines of 6000 bytes.  No write returns an error. *)
Theorem Log_Write_exceeds_capacity :
  (let '(l, e) := Log.Writes (Log.NewLog 20)
                    [line_digits; line_letters; line_more] in
   e = None ∧ Log.Len l = 22 ∧ Log.Cap l = 51 ∧
   Buffer.Bytes (Log.buffer l) = line_letters ++ line_more) ∧
  (let '(l, e) := Log.Writes (Log.NewLog BUFFER_SIZE)
                    [long_line; long_line; long_line] in
   e = None ∧ N.of_nat (Log.Len l) = 12000%N ∧
   N.of_nat (Log.Cap l) = 26000%N ∧
   (N.of_nat BUFFER_SIZE < N.of_nat (Log.Len l))%N).
Proof. vm_compute. repeat split. Qed.

(** C6, as stated, fails: on the log holding ["ABCDEFGHIJ\n"] a first [Read]
    delivers the 11 bytes together with [io.EOF], and a second [Read], with no
    write in between, delivers the same 11 bytes again. *)
Lemma Log_Read_after_EOF_delivers_again :
  let '(l1, d1, e1) := Log.Read log_letters 16 in
  let '(l2, d2, e2) := Log.Read l1 16 in
  d1 = line_letters ∧ e1 = Some EOF ∧
  d2 = line_letters ∧ d2 ≠ [] ∧ e2 = Some EOF.
Proof. vm_compute. repeat split. discriminate. Qed.

(** C6, amended.  A [Read] that delivers [io.EOF] together with some bytes
    has dropped its reader and left the buffer as it was: the next [Read]
    starts on a fresh snapshot and delivers the content of the buffer again
    from its first byte, with [io.EOF] when the destination takes all of it.
    Only a [Read] that delivers [io.EOF] with no bytes (its snapshot was taken
    of an empty log) is followed by reads of zero bytes and [io.EOF]. *)
Theorem Log_Read_after_EOF_takes_fresh_snapshot l n l1 d1 :
  Log.Read l n = (l1, d1, Some EOF) →
  (d1 ≠ [] →
     Log.Reader l1 = None ∧ Log.buffer l1 = Log.buffer l ∧
     ∀ n', ∃ l2,
       Log.Read l1 n' =
         (l2, take n' (Buffer.Bytes (Log.buffer l)),
          if bool_decide (length (Buffer.Bytes (Log.buffer l)) ≤ n')
          then Some EOF else None)) ∧
  (d1 = [] → ∀ n', Log.Read l1 n' = (l1, [], Some EOF)).
Proof.
  unfold Log.Read at 1. intros H.
  set (r := match Log.Reader l with
            | Some r => r
            | None => Reader.NewReader (Buffer.Bytes (Log.buffer l))
            end) in H.
  unfold Reader.Read in H.
  destruct (bool_decide (length (Reader.s r) ≤ Reader.i r)) eqn:Hex.
  - (* the reader was exhausted: zero bytes, and the reader stays *)
    simpl in H. injection H as <- <-. split; [done|]. intros _ n'.
    unfold Log.Read. simpl. unfold Reader.Read. by rewrite Hex.
  - simpl in H.
    destruct (bool_decide (Reader.Len _ = 0)) eqn:Hlen; [|done].
    injection H as <- <-. split; [|].
    + intros _. split_and!; [done..|]. intros n'. unfold Log.Read. simpl.
      set (content := Buffer.Bytes (Log.buffer l)).
      unfold Reader.Read, Reader.NewReader. simpl.
      unfold Reader.Len. cbn [Reader.s Reader.i]. rewrite drop_0.
      repeat case_bool_decide; simpl in *;
        rewrite ?length_take in *; try lia; eauto.
      all: destruct content; simpl in *; try lia; try congruence;
        rewrite ?take_nil; eauto.
    + intros Hnil. exfalso. apply bool_decide_eq_true_1 in Hlen.
      apply bool_decide_eq_false_1 in Hex. unfold Reader.Len in Hlen. simpl in Hlen.
      rewrite Hnil in Hlen. simpl in Hlen. rewrite Nat.add_0_r in Hlen.
      rewrite bool_decide_eq_false_2 in Hlen by done. lia.
Qed.

Lemma Log_Read_after_EOF_takes_fresh_snapshot_witness :
  Log.Read log_letters 16 = (log_letters, line_letters, Some EOF) ∧
  ∀ n', ∃ l2,
    Log.Read log_letters n' =
      (l2, take n' line_letters,
       if bool_decide (11 ≤ n') then Some EOF else None).
Proof.
  assert (H : Log.Read log_letters 16 = (log_letters, line_letters, Some EOF))
    by (vm_compute; reflexivity).
  split; [exact H|].
  destruct (Log_Read_after_EOF_takes_fresh_snapshot _ _ _ _ H) as [Hfresh _].
  destruct Hfresh as (_ & _ & Hnext); [discriminate|]. exact Hnext.
Defined.

End log_facts.

(** ** [log.go]: the second registry *)

Section registry_facts.

Import Daemon2.

Open Scope string_scope.

(** C10. [IsEnabled] answers [ErrNotImplemented] for every name, in both
    registries; the registry it is called on makes no difference. *)
Theorem IsEnabled_not_implemented (sys1 sys1' : Daemon1.Daemon)
    (sys2 sys2' : Daemon) (name : string) :
  (Daemon1.IsEnabled sys1 name).2 = Some ErrNotImplemented ∧
  (IsEnabled sys2 name).2 = Some ErrNotImplemented ∧
  Daemon1.IsEnabled sys1 name = Daemon1.IsEnabled sys1' name ∧
  IsEnabled sys2 name = IsEnabled sys2' name.
Proof. unfold Daemon1.IsEnabled, IsEnabled. done. Qed.

Lemma Supported_Ext name :
  Supported name = true → Ext name = ".service" ∨ Ext name = ".target".
Proof.
  unfold Supported, SupportedSuffix, supported.
  destruct (decide (Ext name = ".service")) as [->|H1]; [by left|].
  destruct (decide (Ext name = ".target")) as [->|H2]; [by right|].
  rewrite !lookup_insert_ne by done.
  destruct (decide (Ext name = ".mount")) as [->|H3]; [done|].
  rewrite lookup_insert_ne by done.
  destruct (decide (Ext name = ".socket")) as [->|H4]; [done|].
  by rewrite lookup_insert_ne.
Qed.

Lemma load_paths_not_exist fs sys name ps :
  (∀ p, p ∈ ps → fs p = NotExist) →
  load_paths fs sys name ps = Ret (sys, nil, Some ErrNotFound).
Proof.
  induction ps as [|p ps IH]; intros H; simpl; [done|].
  rewrite H by left. apply IH. intros q Hq. apply H. by right.
Qed.

Lemma load_paths_skip fs sys name pre ps :
  (∀ q, q ∈ pre → fs q = NotExist) →
  load_paths fs sys name (pre ++ ps) = load_paths fs sys name ps.
Proof.
  induction pre as [|q pre IH]; intros H; simpl; [done|].
  rewrite H by left. apply IH. intros q' Hq. apply H. by right.
Qed.

(** [newUnit] registers the unit under its name and, for a service, under
    the trimmed name. *)
Lemma newUnit_registered sys name v :
  let '(sys', u) := newUnit sys name v in
  units sys' !! name = Some u ∧
  (HasSuffix name ".service" = true →
     units sys' !! TrimSuffix name ".service" = Some u) ∧
  mem sys' !! u = Some (mkUnit name "" Unloaded v []).
Proof.
  unfold newUnit. set (u := fresh _). simpl. split_and!.
  - destruct (HasSuffix name ".service"); [|by rewrite lookup_insert_eq].
    rewrite lookup_insert. case_decide; [done|]. by rewrite lookup_insert_eq.
  - intros ->. by rewrite lookup_insert_eq.
  - by rewrite lookup_insert_eq.
Qed.

Lemma load_unit_registered sys name sys1 u :
  load_unit sys name = Ret (sys1, u) →
  units sys1 !! name = Some u ∧
  (HasSuffix name ".service" = true →
   units sys !! name = None ∨
     units sys !! TrimSuffix name ".service" = units sys !! name →
   units sys1 !! TrimSuffix name ".service" = Some u) ∧
  (is_Some (units sys !! name) → sys1 = sys) ∧
  (units sys !! name = None →
   ∃ k, (Ext name = ".target" ∨ Ext name = ".service") ∧
        mem sys1 !! u = Some (mkUnit name "" Unloaded
                                (mkInterface k no_def Inactive) [])).
Proof.
  unfold load_unit, Unit_. destruct (units sys !! name) as [u0|] eqn:Hname.
  - intros [= <- <-]. split_and!; [done| |done|done].
    intros _ [?|Halias]; [done|]. by rewrite Halias.
  - intros H.
    assert (∃ k, (Ext name = ".target" ∨ Ext name = ".service") ∧
                 Ret (sys1, u) = Ret (newUnit sys name
                                        (mkInterface k no_def Inactive)))
      as (k & Hext & Hk).
    { destruct (decide (Ext name = ".target")); [by exists Target; eauto|].
      destruct (decide (Ext name = ".service")); [by exists Service; eauto|].
      done. }
    pose proof (newUnit_registered sys name (mkInterface k no_def Inactive))
      as Hnew.
    destruct (newUnit _ _ _) as [sys2 u2]. injection Hk as -> ->.
    destruct Hnew as (Hn & Ha & Hm). split_and!; [done|by auto| |by eauto].
    by intros [? ?].
Qed.

(** What a [load_file] that returns without error leaves behind. *)
Lemma load_file_success sys u path file sys' u' :
  load_file sys u path file = Ret (sys', u', None) →
  u' = u ∧ units sys' = <[path := u]> (units sys) ∧
  ∃ x, mem sys' !! u = Some x ∧ u_load x = Loaded.
Proof.
  unfold load_file, deref. destruct (mem sys !! u) as [x|]; [|done]. simpl.
  destruct (stat_err file); [done|]. destruct (is_dir file); [done|].
  destruct (parse file) as [d| |]; [|done..].
  intros [= <- <- _]. simpl. split_and!; [done..|].
  eexists. by rewrite lookup_insert_eq.
Qed.

(** What a [load] that returns without error leaves behind. *)
Lemma load_paths_success fs sys name ps sys' u :
  load_paths fs sys name ps = Ret (sys', u, None) →
  ∃ x, mem sys' !! u = Some x ∧ u_load x = Loaded ∧
       units sys' !! name = Some u ∧
       (HasSuffix name ".service" = true →
        units sys !! name = None ∨
          units sys !! TrimSuffix name ".service" = units sys !! name →
        units sys' !! TrimSuffix name ".service" = Some u).
Proof.
  induction ps as [|p ps IH]; simpl; [done|].
  destruct (fs p) as [file| |msg]; [|done..].
  destruct (load_unit sys name) as [[sys1 u1]| |] eqn:Hunit; [|done..]. simpl.
  intros (-> & Hunits & x & Hx & Hload)%load_file_success.
  apply load_unit_registered in Hunit as (Hn & Ha & _).
  exists x. split_and!; [done..| |].
  - rewrite Hunits, lookup_insert. by case_decide.
  - intros Hsuf Hfresh. rewrite Hunits, lookup_insert. case_decide; [done|].
    by apply Ha.
Qed.

Lemma Get_not_loaded Join fs sys name :
  not_loaded sys name → Get Join fs sys name = load Join fs sys name.
Proof.
  unfold not_loaded, Get, Unit_. destruct (units sys !! name) as [u|]; [|done].
  intros (x & Hx & Hl). unfold deref. rewrite Hx. simpl. by rewrite Hl.
Qed.

(** C7, as stated, fails for [Get]: once [foo.service] is loaded, the name
    [foo], whose extension is empty and not supported, resolves to the loaded
    unit without an error. *)
Lemma Get_alias_of_loaded_service_succeeds :
  match Get join fs_service fresh_registry "foo.service" with
  | Ret (sys, u, None) =>
      Supported "foo" = false ∧
      Get join fs_service sys "foo" = Ret (sys, u, None)
  | _ => False
  end.
Proof. vm_compute. split; reflexivity. Qed.

(** C7, amended.  For a name whose extension is not supported, [load] fails
    with [ErrUnknownType] whatever the file system holds and leaves the
    registry as it is, and so does [Get] unless the name is registered for a
    loaded unit.  For a name with a supported extension none of whose
    candidate paths exists, [load] fails with [ErrNotFound], and so does [Get]
    unless the name is registered for a loaded unit. *)
Theorem unsupported_or_missing_name_fails Join fs sys name :
  (Supported name = false →
     load Join fs sys name = Ret (sys, nil, Some ErrUnknownType) ∧
     (not_loaded sys name →
      Get Join fs sys name = Ret (sys, nil, Some ErrUnknownType))) ∧
  (Supported name = true →
   (∀ p, p ∈ candidates Join sys name → fs p = NotExist) →
     load Join fs sys name = Ret (sys, nil, Some ErrNotFound) ∧
     (not_loaded sys name →
      Get Join fs sys name = Ret (sys, nil, Some ErrNotFound))).
Proof.
  split.
  - intros Hs.
    assert (load Join fs sys name = Ret (sys, nil, Some ErrUnknownType)) as Hl
      by (unfold load; by rewrite Hs).
    split; [done|]. intros Hn. by rewrite Get_not_loaded.
  - intros Hs Hfs.
    assert (load Join fs sys name = Ret (sys, nil, Some ErrNotFound)) as Hl.
    { unfold load. rewrite Hs. simpl. by apply load_paths_not_exist. }
    split; [done|]. intros Hn. by rewrite Get_not_loaded.
Qed.

Lemma unsupported_or_missing_name_fails_witness :
  (load join empty_fs fresh_registry "foo.mount"
     = Ret (fresh_registry, nil, Some ErrUnknownType) ∧
   Get join empty_fs fresh_registry "foo.mount"
     = Ret (fresh_registry, nil, Some ErrUnknownType)) ∧
  (load join empty_fs fresh_registry "foo.service"
     = Ret (fresh_registry, nil, Some ErrNotFound) ∧
   Get join empty_fs fresh_registry "foo.service"
     = Ret (fresh_registry, nil, Some ErrNotFound)).
Proof.
  split.
  - destruct (unsupported_or_missing_name_fails join empty_fs fresh_registry
                "foo.mount") as [[Hl Hg] _]; [reflexivity|].
    split; [exact Hl|]. apply Hg. exact I.
  - destruct (unsupported_or_missing_name_fails join empty_fs fresh_registry
                "foo.service") as [_ [Hl Hg]]; [reflexivity|reflexivity|].
    split; [exact Hl|]. apply Hg. exact I.
Defined.

Lemma load_unit_ok sys name :
  Supported name = true → registry_ok sys →
  ∃ sys1 u x, load_unit sys name = Ret (sys1, u) ∧ mem sys1 !! u = Some x.
Proof.
  intros Hs Hok. unfold load_unit, Unit_.
  destruct (units sys !! name) as [u|] eqn:Hname.
  - destruct (Hok _ _ Hname) as [x Hx]. by exists sys, u, x.
  - apply Supported_Ext in Hs.
    assert (∃ k, (if decide (Ext name = ".target") then Ret Target
                  else if decide (Ext name = ".service") then Ret Service
                  else Panic "Trying to load an unsupported unit type")
                 = Ret k) as [k ->].
    { repeat case_decide; naive_solver. }
    simpl.
    pose proof (newUnit_registered sys name (mkInterface k no_def Inactive))
      as Hnew.
    destruct (newUnit _ _ _) as [sys1 u]. destruct Hnew as (_ & _ & Hm). eauto.
Qed.

(** C8, as stated, fails: with a directory named [foo.service] in the first
    search path and a definition in the second, [load] stops at the directory
    with [ErrIsDir]; the unit it returns carries the path of the directory and
    is not loaded. *)
Lemma load_stops_at_directory :
  fs_shadowed "/lib/systemd/system/foo.service" = Opened plain_file ∧
  match load join fs_shadowed fresh_registry "foo.service" with
  | Ret (sys, u, err) =>
      err = Some ErrIsDir ∧
      u_path <$> mem sys !! u = Some "/etc/systemd/system/foo.service" ∧
      u_load <$> mem sys !! u = Some Unloaded
  | _ => False
  end.
Proof. vm_compute. repeat split. Qed.

(** C8, amended.  [load] passes over the candidate paths that do not exist,
    and the first candidate that exists decides the outcome, whatever the
    later ones hold: an open error other than "does not exist" is returned as
    it is; a directory gives [ErrIsDir]; a regular file whose definition is
    well formed is loaded, and the unit carries its path. *)
Theorem load_first_existing_path_decides Join fs sys name pre p post :
  Supported name = true → registry_ok sys →
  candidates Join sys name = (pre ++ p :: post)%list →
  (∀ q, q ∈ pre → fs q = NotExist) →
  (∀ msg, fs p = OpenErr msg →
     load Join fs sys name = Ret (sys, nil, Some (OsError msg))) ∧
  (∀ file, fs p = Opened file → stat_err file = None → is_dir file = true →
     ∃ sys' u, load Join fs sys name = Ret (sys', u, Some ErrIsDir)) ∧
  (∀ file d, fs p = Opened file → stat_err file = None →
     is_dir file = false → parse file = DefineOk d →
     ∃ sys' u x,
       load Join fs sys name = Ret (sys', u, close_err file) ∧
       mem sys' !! u = Some x ∧ u_path x = p ∧ u_load x = Loaded ∧
       i_def (u_Interface x) = d ∧ units sys' !! name = Some u).
Proof.
  intros Hs Hok Hc Hpre.
  assert (Hl : load Join fs sys name = load_paths fs sys name (p :: post)).
  { unfold load. rewrite Hs, Hc. simpl. by apply load_paths_skip. }
  rewrite Hl. simpl. split_and!.
  - by intros msg ->.
  - intros file -> Hstat Hdir.
    destruct (load_unit_ok sys name Hs Hok) as (sys1 & u & x & -> & Hx). simpl.
    unfold load_file, deref. rewrite Hx. simpl. rewrite Hstat, Hdir. eauto.
  - intros file d -> Hstat Hdir Hparse.
    destruct (load_unit_ok sys name Hs Hok) as (sys1 & u & x & Hunit & Hx).
    rewrite Hunit. simpl.
    apply load_unit_registered in Hunit as (Hn & _).
    unfold load_file, deref. rewrite Hx. simpl. rewrite Hstat, Hdir, Hparse.
    eexists _, _, _. split; [done|]. simpl. rewrite lookup_insert_eq.
    split_and!; [done..|]. rewrite lookup_insert. by case_decide.
Qed.

Lemma load_first_existing_path_decides_witness :
  ∃ sys' u x,
    load join fs_second fresh_registry "foo.service" = Ret (sys', u, None) ∧
    mem sys' !! u = Some x ∧
    u_path x = "/lib/systemd/system/foo.service" ∧ u_load x = Loaded ∧
    i_def (u_Interface x) = no_def ∧ units sys' !! "foo.service" = Some u.
Proof.
  destruct (load_first_existing_path_decides join fs_second fresh_registry
              "foo.service" ["/etc/systemd/system/foo.service"]
              "/lib/systemd/system/foo.service" [])
    as (_ & _ & Hfile).
  - reflexivity.
  - intros n u H. vm_compute in H. discriminate.
  - reflexivity.
  - intros q Hq. apply list_elem_of_singleton in Hq. subst q. reflexivity.
  - apply (Hfile plain_file no_def); reflexivity.
Defined.

(** C9, as stated, fails for a target: after [foo.target] is loaded, the
    name [foo] is not registered, and [Get] on it fails. *)
Lemma target_has_no_alias :
  match load join fs_target fresh_registry "foo.target" with
  | Ret (sys, u, None) =>
      Get join fs_target sys "foo.target" = Ret (sys, u, None) ∧
      Unit_ sys "foo" = (nil, Some ErrNotFound) ∧
      Get join fs_target sys "foo" = Ret (sys, nil, Some ErrUnknownType)
  | _ => False
  end.
Proof. vm_compute. repeat split. Qed.

(** C9, amended.  A unit created under a name that ends in [.service] is
    registered under that name and under the name without the suffix, and
    both resolve to the same pointer; once such a name has been loaded
    without error, [Get] returns that same unit for the name and for the
    trimmed name. *)
Theorem service_alias_is_same_unit Join fs sys name :
  HasSuffix name ".service" = true →
  (∀ v, let '(sys', u) := newUnit sys name v in
        Unit_ sys' name = (u, None) ∧
        Unit_ sys' (TrimSuffix name ".service") = (u, None)) ∧
  (∀ sys' u,
     units sys !! name = None ∨
       units sys !! TrimSuffix name ".service" = units sys !! name →
     load Join fs sys name = Ret (sys', u, None) →
     Get Join fs sys' name = Ret (sys', u, None) ∧
     Get Join fs sys' (TrimSuffix name ".service") = Ret (sys', u, None)).
Proof.
  intros Hsuf. split.
  - intros v. pose proof (newUnit_registered sys name v) as Hnew.
    destruct (newUnit sys name v) as [sys' u].
    destruct Hnew as (Hn & Ha & _). unfold Unit_. by rewrite Hn, (Ha Hsuf).
  - intros sys' u Hfresh Hload. unfold load in Hload.
    destruct (negb (Supported name)); [done|].
    apply load_paths_success in Hload as (x & Hx & Hl & Hn & Ha).
    specialize (Ha Hsuf Hfresh).
    unfold Get, Unit_, deref. rewrite Hn, Ha, Hx. simpl.
    unfold IsLoaded. by rewrite Hl.
Qed.

Lemma service_alias_is_same_unit_witness :
  ∃ sys' u,
    load join fs_service fresh_registry "foo.service" = Ret (sys', u, None) ∧
    Get join fs_service sys' "foo.service" = Ret (sys', u, None) ∧
    Get join fs_service sys' "foo" = Ret (sys', u, None).
Proof.
  destruct (load join fs_service fresh_registry "foo.service")
    as [[[sys' u] [e|]]| |] eqn:Hload; try (vm_compute in Hload; discriminate).
  exists sys', u. split; [reflexivity|].
  destruct (service_alias_is_same_unit join fs_service fresh_registry
              "foo.service") as [_ Hget]; [reflexivity|].
  apply (Hget sys' u); [left; reflexivity|exact Hload].
Defined.

Lemma Isolate_transaction_after_start Join fs range_set fuel sys names
    sys1 tr sys2 tr2 :
  newTransaction Join fs fuel start sys names = Ret (sys1, Some tr, None) →
  Isolate_loop Join fs fuel sys1 tr (Units range_set sys1)
    = Ret (sys2, tr2, None) →
  Isolate_transaction Join fs range_set fuel sys names
    = Ret (sys2, Some tr2, None).
Proof.
  unfold Isolate_transaction. intros Hnew Hloop. rewrite Hnew. simpl.
  by rewrite Hloop.
Qed.

Lemma Isolate_loop_three_services fuel aB us :
  us ≡ₚ elements (map_img (SA:=gset ptr) (units (three_services aB))) →
  Isolate_loop join empty_fs (S fuel) (three_services aB)
    (mkTransaction {[1 := mkJob start 1 true true]}) us
    = Ret (three_services aB, mkTransaction isolate_A_jobs, None).
Proof.
  intros Hus. symmetry in Hus. apply permutations_Permutation in Hus.
  vm_compute in Hus.
  repeat (apply elem_of_cons in Hus as [->|Hus]; [vm_compute; reflexivity|]).
  by apply elem_of_nil in Hus.
Qed.

(** C3.  [Isolate] walks [sys.Units()], every unit of the registry, and
    [add] does not look at the activation state.  With the services [A], [B]
    and [C] registered, [Isolate("A")] hands [Run] a start job for [A] and
    stop jobs for [B] and [C] and none for [A], in every order in which the
    set of units is walked: as the claim has it when all three are active,
    but just the same when [B] is inactive or failed. *)
Theorem Isolate_adds_stop_job_for_every_other_unit range_set fuel aB :
  (∀ X, range_set X ≡ₚ elements X) →
  Unit_Active <$> mem (three_services aB) !! 2 = Some aB ∧
  Isolate_transaction join empty_fs range_set (S fuel) (three_services aB) ["A"]
    = Ret (three_services aB, Some (mkTransaction isolate_A_jobs), None).
Proof.
  intros Hrange. split; [reflexivity|].
  apply Isolate_transaction_after_start
    with (sys1 := three_services aB)
         (tr := mkTransaction {[1 := mkJob start 1 true true]}).
  - vm_compute. reflexivity.
  - apply Isolate_loop_three_services, Hrange.
Qed.

Lemma Isolate_adds_stop_job_for_every_other_unit_witness :
  Unit_Active <$> mem (three_services Inactive) !! 2 = Some Inactive ∧
  Isolate_transaction join empty_fs elements 1 (three_services Inactive) ["A"]
    = Ret (three_services Inactive, Some (mkTransaction isolate_A_jobs), None).
Proof.
  apply (Isolate_adds_stop_job_for_every_other_unit elements 0 Inactive).
  intros X. reflexivity.
Defined.

End registry_facts.

(** * Further properties *)

(** ** The log *)

Section log_more.

Lemma Buffer_grow_spec b n :
  Buffer_wf b →
  Buffer.Bytes (Buffer.grow b n) = Buffer.Bytes b ∧
  Buffer.off (Buffer.grow b n) ≤ length (Buffer.buf (Buffer.grow b n)) ∧
  length (Buffer.buf (Buffer.grow b n)) + n ≤ Buffer.cap (Buffer.grow b n) ∧
  Buffer.cap b ≤ Buffer.cap (Buffer.grow b n).
Proof.
  intros [Hoff Hcap]. unfold Buffer.grow, Buffer.Len, Buffer.Bytes, Buffer.Reset.
  destruct b as [buf off cap]. simpl in *.
  assert (Hdiv : cap `div` 2 ≤ cap) by (apply Nat.Div0.div_le_upper_bound; lia).
  destruct (bool_decide (length buf - off = 0) && negb (bool_decide (off = 0)))
    eqn:Hreset.
  - apply andb_prop in Hreset as [Hm%bool_decide_eq_true_1 _].
    assert (drop off buf = []) as -> by (apply drop_ge; lia). simpl.
    rewrite Hm. repeat case_bool_decide; simpl in *; split_and!; (done || lia).
  - repeat case_bool_decide; simpl in *; rewrite ?length_drop, ?drop_0;
      split_and!; (done || lia).
Qed.

Lemma Buffer_Write_spec b p :
  Buffer_wf b →
  ∃ b', Buffer.Write b p = (b', length p, None) ∧
        Buffer.Bytes b' = Buffer.Bytes b ++ p ∧ Buffer_wf b' ∧
        Buffer.cap b ≤ Buffer.cap b'.
Proof.
  intros Hwf. destruct (Buffer_grow_spec b (length p) Hwf) as (Hb & Ho & Hl & Hc).
  unfold Buffer.Write. eexists. split; [done|]. unfold Buffer_wf, Buffer.Bytes in *.
  simpl. rewrite length_app, drop_app_le by done. rewrite Hb.
  split_and!; (done || lia).
Qed.

Lemma Buffer_Read_spec b k :
  Buffer_wf b →
  ∃ b', Buffer.Read b k
          = (b', take k (Buffer.Bytes b),
             if bool_decide (Buffer.Bytes b = []) && negb (bool_decide (k = 0))
             then Some EOF else None) ∧
        Buffer.Bytes b' = drop k (Buffer.Bytes b) ∧ Buffer_wf b' ∧
        Buffer.cap b' = Buffer.cap b.
Proof.
  intros [Hoff Hcap]. unfold Buffer.Read, Buffer.Bytes, Buffer.Reset, Buffer_wf.
  destruct b as [buf off cap]. simpl in *. case_bool_decide as Hempty.
  - rewrite (drop_ge buf off) by lia. rewrite take_nil, drop_nil. simpl.
    eexists. split; [by case_bool_decide|]. simpl. split_and!; (done || lia).
  - eexists. rewrite bool_decide_eq_false_2.
    + split; [done|]. simpl. rewrite length_take, length_drop, drop_drop.
      split_and!; [|lia|lia|done].
      destruct (decide (k ≤ length buf - off));
        [by rewrite Nat.min_l by lia|by rewrite !drop_ge by lia].
    + intros Hnil%(f_equal length). rewrite length_drop in Hnil. simpl in Hnil. lia.
Qed.

Lemma IndexByte_spec s c :
  match Buffer.IndexByte s c with
  | Some i => s !! i = Some c ∧ c ∉ take i s
  | None => c ∉ s
  end.
Proof.
  induction s as [|x s IH]; simpl.
  - apply not_elem_of_nil.
  - case_decide as Hx.
    + subst x. split; [done|]. apply not_elem_of_nil.
    + destruct (Buffer.IndexByte s c) as [i|]; simpl.
      * destruct IH as [Hi Hn]. split; [done|]. rewrite not_elem_of_cons. auto.
      * rewrite not_elem_of_cons. auto.
Qed.

Lemma Buffer_ReadString_spec b d :
  Buffer_wf b →
  ∃ b' line err,
    Buffer.ReadString b d = (b', line, err) ∧
    Buffer.Bytes b = line ++ Buffer.Bytes b' ∧ Buffer_wf b' ∧
    Buffer.cap b' = Buffer.cap b ∧
    match err with
    | None => last line = Some d
    | Some e => e = EOF ∧ Buffer.Bytes b' = [] ∧ d ∉ Buffer.Bytes b
    end.
Proof.
  intros [Hoff Hcap]. unfold Buffer.ReadString.
  pose proof (IndexByte_spec (Buffer.Bytes b) d) as Hidx.
  destruct (Buffer.IndexByte (Buffer.Bytes b) d) as [i|].
  - destruct Hidx as [Hi _]. eexists _, _, _. split; [done|].
    unfold Buffer.Bytes, Buffer_wf in *. simpl.
    pose proof (lookup_lt_Some _ _ _ Hi) as Hlt. rewrite length_drop in Hlt.
    split_and!; [|lia|lia|done|].
    + replace (drop (Buffer.off b + i + 1) (Buffer.buf b))
        with (drop (i + 1) (drop (Buffer.off b) (Buffer.buf b)))
        by (rewrite drop_drop; f_equal; lia).
      by rewrite take_drop.
    + rewrite Nat.add_comm. simpl.
      rewrite (take_S_r _ _ _ Hi). apply last_snoc.
  - eexists _, _, _. split; [done|]. unfold Buffer.Bytes, Buffer_wf in *. simpl.
    rewrite drop_all, app_nil_r. split_and!; (done || lia).
Qed.

(** X1.  Whatever branch it takes, a [Write] that returns without error
    leaves at most as many bytes as the capacity [Cap()] was when it began,
    and never more than the capacity is afterwards; the reader is not
    touched. *)
Theorem Log_Write_within_entry_capacity l b l' n :
  Log_wf l → Log.Write l b = (l', n, None) →
  Log.Len l' ≤ Log.Cap l ∧ Log.Len l' ≤ Log.Cap l' ∧ Log_wf l' ∧
  Log.Reader l' = Log.Reader l.
Proof.
  unfold Log_wf, Log.Write, Log.Len, Log.Cap, Buffer.Cap. intros Hwf.
  assert (HLen : ∀ x, Buffer.Len x = length (Buffer.Bytes x)).
  { intros x. unfold Buffer.Len, Buffer.Bytes. by rewrite length_drop. }
  assert (Hfin : ∀ x, Buffer_wf x → Buffer.Len x ≤ Buffer.cap x).
  { intros x [? ?]. unfold Buffer.Len. lia. }
  case_bool_decide as Hfit.
  - destruct (Buffer_Write_spec (Log.buffer l) b Hwf) as (b' & -> & Hb & Hwf' & Hc).
    intros [= <- <-]. simpl. rewrite HLen, Hb, length_app, <- HLen.
    split_and!; [lia|lia|done|done].
  - assert (Hover : ∀ x, Buffer_wf x →
              length (Buffer.Bytes x) ≤ Buffer.cap (Log.buffer l) →
              ∀ y m, Log.Write_deferred (x, m, None) = (y, n, None) →
              Buffer.Len y ≤ Buffer.cap (Log.buffer l) ∧
              Buffer.Len y ≤ Buffer.cap y ∧ Buffer_wf y).
    { intros x Hx Hlen y m. unfold Log.Write_deferred.
      destruct (Buffer_ReadString_spec x newline Hx)
        as (x' & line & e & -> & Hsplit & Hx' & Hcap & _).
      intros [= <- _ ->]. rewrite HLen.
      apply (f_equal length) in Hsplit. rewrite length_app in Hsplit.
      split_and!; [lia|rewrite <- HLen; by apply Hfin|done]. }
    case_bool_decide as Hbig.
    + assert (Hr : Buffer_wf (Buffer.Reset (Log.buffer l))).
      { destruct Hwf. split; simpl; lia. }
      destruct (Buffer_Write_spec _ (drop (length b - Buffer.cap (Log.buffer l)) b) Hr)
        as (b' & -> & Hb & Hwf' & Hc).
      destruct (Log.Write_deferred _) as [[y m] e] eqn:Hd.
      intros [= <- <- ->]. simpl.
      destruct (Hover b' Hwf') with (y := y) (m := length (drop (length b - Buffer.cap (Log.buffer l)) b))
        as (H1 & H2 & H3); [|done|done].
      rewrite Hb, length_app, length_drop. unfold Buffer.Bytes. simpl. lia.
    + destruct (Buffer_Read_spec (Log.buffer l)
                  (Z.to_nat (Z.of_nat (length b) - Z.of_nat (Buffer.cap (Log.buffer l))
                             + Z.of_nat (Buffer.Len (Log.buffer l)))) Hwf)
        as (b1 & -> & Hb1 & Hwf1 & Hc1).
      assert (Buffer.Bytes (Log.buffer l) ≠ []) as Hne.
      { intros Hnil%(f_equal length). rewrite <- HLen in Hnil. simpl in Hnil. lia. }
      rewrite bool_decide_eq_false_2 by done. cbn [andb].
      destruct (Buffer_Write_spec b1 b Hwf1) as (b2 & -> & Hb2 & Hwf2 & Hc2).
      destruct (Log.Write_deferred _) as [[y m] e] eqn:Hd.
      intros [= <- <- ->]. simpl.
      destruct (Hover b2 Hwf2) with (y := y) (m := length b) as (H1 & H2 & H3);
        [|done|done].
      rewrite Hb2, length_app, Hb1, length_drop, <- HLen. lia.
Qed.

Lemma Log_Write_within_entry_capacity_witness :
  Log.Len log_letters ≤ 20 ∧ Log.Len log_letters ≤ Log.Cap log_letters.
Proof.
  destruct (Log_Write_within_entry_capacity
              (Log.Write (Log.NewLog 20) line_digits).1.1 line_letters
              log_letters 11) as (H1 & H2 & _).
  - unfold Log_wf, Buffer_wf. vm_compute. split; lia.
  - vm_compute. reflexivity.
  - split; [exact H1|exact H2].
Defined.

Lemma Write_deferred_spec x m :
  Buffer_wf x →
  ∃ y line e,
    Log.Write_deferred (x, m, None) = (y, m, e) ∧
    Buffer.Bytes x = line ++ Buffer.Bytes y ∧ Buffer_wf y ∧
    match e with
    | None => last line = Some newline
    | Some e => e = EOF ∧ Buffer.Bytes y = [] ∧ newline ∉ Buffer.Bytes x
    end.
Proof.
  intros Hx. unfold Log.Write_deferred.
  destruct (Buffer_ReadString_spec x newline Hx)
    as (y & line & e & -> & Hsplit & Hy & _ & He).
  by exists y, line, e.
Qed.

(** X2.  A [Write] that returns without error loses bytes only from the
    head, and only up to and including a line terminator: the old content
    followed by [b] is some prefix, empty or ending in ['\n'], followed by the
    new content.  When [b] fits, nothing is lost. *)
Theorem Log_Write_drops_whole_lines l b l' n :
  Log_wf l → Log.Write l b = (l', n, None) →
  ∃ pre, Log_content l ++ b = pre ++ Log_content l' ∧
         (pre = [] ∨ last pre = Some newline) ∧
         (Log.Len l + length b ≤ Log.Cap l → pre = []).
Proof.
  unfold Log_wf, Log_content, Log.Write, Log.Len, Log.Cap, Buffer.Cap.
  intros Hwf. case_bool_decide as Hfit.
  - destruct (Buffer_Write_spec (Log.buffer l) b Hwf) as (b' & -> & Hb & _).
    intros [= <- <-]. simpl. exists []. split_and!; [by rewrite Hb|by left|done].
  - case_bool_decide as Hbig.
    + assert (Hr : Buffer_wf (Buffer.Reset (Log.buffer l))).
      { destruct Hwf. split; simpl; lia. }
      destruct (Buffer_Write_spec _ (drop (length b - Buffer.cap (Log.buffer l)) b) Hr)
        as (b' & -> & Hb & Hwf' & _).
      destruct (Write_deferred_spec b'
                  (length (drop (length b - Buffer.cap (Log.buffer l)) b)) Hwf')
        as (y & line & e & -> & Hsplit & _ & He).
      intros [= <- <- ->]. simpl.
      exists (Buffer.Bytes (Log.buffer l)
              ++ take (length b - Buffer.cap (Log.buffer l)) b ++ line).
      split_and!; [|right|lia].
      * rewrite <- !app_assoc, <- Hsplit, Hb. unfold Buffer.Bytes at 3. simpl.
        by rewrite take_drop.
      * rewrite !last_app, He. done.
    + destruct (Buffer_Read_spec (Log.buffer l)
                  (Z.to_nat (Z.of_nat (length b) - Z.of_nat (Buffer.cap (Log.buffer l))
                             + Z.of_nat (Buffer.Len (Log.buffer l)))) Hwf)
        as (b1 & -> & Hb1 & Hwf1 & _).
      assert (Buffer.Bytes (Log.buffer l) ≠ []) as Hne.
      { intros Hnil%(f_equal length). unfold Buffer.Bytes in Hnil.
        rewrite length_drop in Hnil. unfold Buffer.Len in *. simpl in Hnil. lia. }
      rewrite bool_decide_eq_false_2 by done. cbn [andb].
      destruct (Buffer_Write_spec b1 b Hwf1) as (b2 & -> & Hb2 & Hwf2 & _).
      destruct (Write_deferred_spec b2 (length b) Hwf2)
        as (y & line & e & -> & Hsplit & _ & He).
      intros [= <- <- ->]. simpl.
      eexists (take _ (Buffer.Bytes (Log.buffer l)) ++ line).
      split_and!; [|right|lia].
      * rewrite <- !app_assoc, <- Hsplit, Hb2, Hb1, app_assoc. by rewrite take_drop.
      * rewrite last_app, He. done.
Qed.

Lemma Log_Write_drops_whole_lines_witness :
  ∃ pre, line_digits ++ line_letters = pre ++ Log_content log_letters ∧
         (pre = [] ∨ last pre = Some newline).
Proof.
  destruct (Log_Write_drops_whole_lines
              (Log.Write (Log.NewLog 20) line_digits).1.1 line_letters
              log_letters 11) as (pre & H1 & H2 & _).
  - unfold Log_wf, Buffer_wf. vm_compute. split; lia.
  - vm_compute. reflexivity.
  - exists pre. split; [exact H1|exact H2].
Defined.



Lemma Log_Writes_Reader l bs : Log.Reader (Log.Writes l bs).1 = Log.Reader l.
Proof.
  revert l. induction bs as [|b bs IH]; intros l; simpl; [done|].
  destruct (Log.Write l b) as [[l1 n] e] eqn:Hw.
  assert (Log.Reader l1 = Log.Reader l) as Hr.
  { unfold Log.Write in Hw. destruct (if bool_decide _ then _ else _) as [[? ?] ?].
    by injection Hw as <- _ _. }
  destruct e; simpl; [done|]. by rewrite IH.
Qed.

(** X4.  A [Read] of a log that is empty and has no reader returns zero
    bytes and [io.EOF], but keeps the reader it has made on the empty
    snapshot.  From then on every [Read] returns zero bytes and [io.EOF],
    whatever is written to the log in between. *)
Theorem Log_Read_of_empty_log_sticks l n l1 :
  Log.Reader l = None → Log_content l = [] →
  Log.Read l n = (l1, [], Some EOF) →
  ∀ bs k, Log.Read (Log.Writes l1 bs).1 k = ((Log.Writes l1 bs).1, [], Some EOF).
Proof.
  unfold Log_content, Log.Read at 1. intros -> ->.
  unfold Reader.Read, Reader.NewReader. simpl. intros [= <-] bs k.
  pose proof (Log_Writes_Reader
                (Log.mk (Some (Reader.mk [] 0)) (Log.buffer l)) bs) as Hr.
  destruct (Log.Writes _ bs).1 as [r buffer]. simpl in Hr. subst r.
  unfold Log.Read, Reader.Read. simpl. done.
Qed.

Lemma Log_Read_of_empty_log_sticks_witness :
  ∃ l1, Log.Read (Log.NewLog 20) 16 = (l1, [], Some EOF) ∧
        Log.Read (Log.Writes l1 [line_digits]).1 16
          = ((Log.Writes l1 [line_digits]).1, [], Some EOF) ∧
        Log_content (Log.Writes l1 [line_digits]).1 = line_digits.
Proof.
  eexists. split; [vm_compute; reflexivity|]. split.
  - apply (Log_Read_of_empty_log_sticks (Log.NewLog 20) 16); reflexivity.
  - vm_compute. reflexivity.
Defined.

(** X5.  Round trip: when the log has no reader and [b] fits, [Write(b)]
    followed by a [Read] into a destination that is large enough delivers the
    old content followed by [b], together with [io.EOF], and leaves the log
    without a reader. *)
Theorem Log_Write_then_Read l b k :
  Log_wf l → Log.Reader l = None →
  Log.Len l + length b ≤ Log.Cap l →
  Log_content l ++ b ≠ [] → length (Log_content l ++ b) ≤ k →
  ∃ l1 l2, Log.Write l b = (l1, length b, None) ∧
           Log.Read l1 k = (l2, Log_content l ++ b, Some EOF) ∧
           Log.Reader l2 = None ∧ Log_content l2 = Log_content l ++ b.
Proof.
  unfold Log_wf, Log_content, Log.Write, Log.Len, Log.Cap, Buffer.Cap.
  intros Hwf Hr Hfit Hne Hk. rewrite bool_decide_eq_true_2 by done.
  destruct (Buffer_Write_spec (Log.buffer l) b Hwf) as (b' & -> & Hb & _).
  eexists _, _. split; [done|]. unfold Log.Read. simpl. rewrite Hr.
  unfold Reader.Read, Reader.NewReader, Reader.Len. simpl. rewrite Hb.
  destruct (Buffer.Bytes (Log.buffer l) ++ b) as [|c rest] eqn:Hc; [done|].
  rewrite bool_decide_eq_false_2 by (simpl; lia). rewrite drop_0.
  rewrite take_ge by done. simpl in *.
  repeat case_bool_decide; simpl in *; (done || lia).
Qed.

Lemma Log_Write_then_Read_witness :
  ∃ l1 l2, Log.Write (Log.NewLog 20) line_digits = (l1, 11, None) ∧
           Log.Read l1 16 = (l2, line_digits, Some EOF) ∧
           Log.Reader l2 = None ∧ Log_content l2 = line_digits.
Proof.
  apply (Log_Write_then_Read (Log.NewLog 20) line_digits 16).
  - unfold Log_wf, Buffer_wf. vm_compute. split; lia.
  - reflexivity.
  - vm_compute. lia.
  - discriminate.
  - vm_compute. lia.
Defined.




End log_more.

(** ** The ordering of a request, with or without cycles *)

Section ordering_more.

Import Daemon1.

Section dfs_total.

Variable range_before : ptr → gmap string ptr → list (string * ptr).
Hypothesis range_before_perm : ∀ u m, range_before u m ≡ₚ map_to_list m.
Variable b : gmap ptr (gmap string ptr).
Variable U : gset ptr.
Hypothesis closed : ∀ u d, u ∈ U → runs_before b u d → d ∈ U.

Lemma traverse_range_total
    (trav : graph → ptr → outcome (graph * option error)) V (P : ptr → Prop) :
  (∀ g d, dfs_inv b U g → P d → visited g = V →
          dfs_post b U g d (trav g d) ∨ dfs_cycle b (trav g d)) →
  ∀ deps g, dfs_inv b U g → visited g = V → (∀ n d, (n, d) ∈ deps → P d) →
    (∃ g', traverse_range trav deps g = Ret (g', None) ∧ dfs_inv b U g' ∧
           visited g' = V ∧ ordered g ⊆ ordered g' ∧
           (∀ n d, (n, d) ∈ deps → d ∈ ordered g') ∧
           ∃ ext, ordering g' = ordering g ++ ext) ∨
    dfs_cycle b (traverse_range trav deps g).
Proof.
  intros Htrav deps. induction deps as [|[n d] deps IH]; intros g Hinv HV HP.
  - left. exists g. split_and!; try done. { intros ?? H; inversion H. }
    exists []. by rewrite app_nil_r.
  - simpl. destruct (Htrav g d) as [(g1 & Hr1 & Hinv1 & HV1 & Hd & Hsub & ext1 & Hext1)
                                   |(g1 & e & Hr1 & Hcyc)];
      [done|eapply HP; left|done| |].
    + rewrite Hr1.
      destruct (IH g1) as [(g2 & Hr & Hinv2 & HV2 & Hsub2 & Hall & ext2 & Hext2)|Hc];
        [done|congruence|intros ?? ?; eapply HP; by right| |by right].
      left. exists g2. split_and!; try done.
      * set_solver.
      * intros n' d' [Heq | Hin]%elem_of_cons; [| by eapply Hall].
        inversion Heq; subst. set_solver.
      * exists (ext1 ++ ext2). by rewrite Hext2, Hext1, app_assoc.
    + right. rewrite Hr1. by eexists _, _.
Qed.

Lemma traverse_total fuel : ∀ g u,
  dfs_inv b U g → u ∈ U → visited g ⊆ U →
  (∀ v, v ∈ visited g → tc (runs_before b) v u) →
  size (U ∖ visited g) < fuel →
  dfs_post b U g u (traverse range_before fuel g u) ∨
  dfs_cycle b (traverse range_before fuel g u).
Proof.
  induction fuel as [|fuel IH]; intros g u Hinv Hu HVU Hstack Hfuel; [lia|].
  rewrite traverse_S. destruct (decide (u ∈ ordered g)) as [Hord|Hord].
  { left. exists g. split_and!; try done. exists []. by rewrite app_nil_r. }
  destruct (decide (u ∈ visited g)) as [Hvis|Hvis].
  { right. eexists _, _. split; [done|]. exists u. by apply Hstack. }
  set (g1 := set_visited ({[u]} ∪ visited g) g).
  assert (Hinv1 : dfs_inv b U g1) by (destruct Hinv; by constructor).
  assert (Hdeps : ∀ n d, (n, d) ∈ range_before u (default ∅ (before g !! u)) ↔
                          default ∅ (b !! u) !! n = Some d).
  { intros n d. rewrite range_before_perm, elem_of_map_to_list.
    by rewrite (inv_before _ _ _ Hinv). }
  destruct (traverse_range_total (traverse range_before fuel) (visited g1)
              (runs_before b u))
    with (deps := range_before u (default ∅ (before g !! u))) (g := g1)
    as [(g2 & Hr & Hinv2 & HV2 & Hsub2 & Hall & ext2 & Hext2)
       |(g2 & e & Hr & Hcyc)]; try done.
  { intros g' d Hinv' Hd HV'. apply IH; try done.
    - by eapply closed.
    - rewrite HV'. simpl. set_solver.
    - rewrite HV'. simpl. intros v [->%elem_of_singleton | Hv]%elem_of_union.
      + by apply tc_once.
      + eapply tc_r; [by apply Hstack|done].
    - rewrite HV'. simpl.
      assert (U ∖ ({[u]} ∪ visited g) ⊂ U ∖ visited g) as Hlt%subset_size; [|lia].
      split; [set_solver|]. intros Hsub. specialize (Hsub u). set_solver. }
  { intros n d Hin. apply Hdeps in Hin. by exists n. }
  - left. rewrite Hr.
    assert (Hvis2 : visited g2 ∖ {[u]} = visited g).
    { rewrite HV2. simpl. set_solver. }
    destruct (decide (u ∈ ordered g2)) as [Hord2|Hord2].
    + eexists. split; [done|]. split_and!; simpl; try done.
      * destruct Hinv2; by constructor.
      * exists ext2. by rewrite Hext2.
    + eexists. split; [done|]. split_and!; simpl; try done.
      * destruct Hinv2 as [Hb Hnd Ho Hs Hsu]. constructor; simpl; try done.
        -- apply NoDup_app. split_and!; [done| |apply NoDup_singleton].
           intros x Hx ->%list_elem_of_singleton. by apply Hord2, Ho.
        -- intros x. rewrite elem_of_union, elem_of_singleton, Ho, elem_of_app,
             list_elem_of_singleton. tauto.
        -- apply sorted_upto_snoc; [done|]. intros d [n Hd].
           apply Ho. eapply Hall. by apply Hdeps.
        -- set_solver.
      * set_solver.
      * set_solver.
      * exists (ext2 ++ [u]). rewrite Hext2. simpl. by rewrite app_assoc.
  - right. rewrite Hr. by eexists _, _.
Qed.

Lemma order_dfs_total fuel :
  size U < fuel →
  ∀ todo g, dfs_inv b U g → visited g = ∅ → (∀ e, e ∈ todo → e.2 ∈ U) →
    (∃ g', order_dfs range_before fuel todo g = Ret (ordering g', None) ∧
           dfs_inv b U g' ∧ ordered g ⊆ ordered g' ∧
           ∀ e, e ∈ todo → e.2 ∈ ordered g') ∨
    (∃ msg, order_dfs range_before fuel todo g = Ret ([], Some (Errorf msg)) ∧
            ∃ x, tc (runs_before b) x x).
Proof.
  intros Hfuel todo.
  induction todo as [|[name unit] todo IH]; intros g Hinv HV HU.
  - left. exists g. split_and!; try done. intros e []%elem_of_nil.
  - simpl.
    assert (Hpre : size (U ∖ visited g) < fuel).
    { rewrite HV. by replace (U ∖ ∅) with U by set_solver. }
    destruct (traverse_total fuel g unit)
      as [(g1 & Hr & Hinv1 & HV1 & Hu1 & Hsub1 & _)|(g1 & e & Hr & Hcyc)];
      [done|apply (HU (name, unit)); left|rewrite HV; set_solver
      |rewrite HV; set_solver|done| |]; rewrite Hr; simpl.
    + destruct (IH g1) as [(g2 & Hr2 & Hinv2 & Hsub2 & Hall)|Herr];
        [done|congruence|intros e He; apply HU; by right| |by right].
      left. exists g2. split_and!; [done|done|set_solver|].
      intros e [->|He]%elem_of_cons; [set_solver|by apply Hall].
    + right. eexists. by split.
Qed.

End dfs_total.

Lemma precedes_acyclic (R : relation ptr) L :
  NoDup L → (∀ u v, R u v → precedes L u v) → ∀ u, ¬ tc R u u.
Proof.
  intros Hnd HR.
  assert (Htc : ∀ u v, tc R u v → precedes L u v).
  { induction 1 as [u v H|u v w H _ IH]; [by apply HR|].
    destruct (HR _ _ H) as (i & j & Hij & Hi & Hj).
    destruct IH as (j' & k & Hjk & Hj' & Hk).
    assert (j = j') as <- by (eapply NoDup_lookup; done).
    exists i, k. split_and!; [lia|done..]. }
  intros u (i & j & Hij & Hi & Hj)%Htc.
  assert (i = j) by (eapply NoDup_lookup; done). lia.
Qed.

(** What [order] returns for a request of units of the store: the ordering
    of C1, or an error and a cycle among the declared edges. *)
Lemma order_outcome range_before range_units h units :
  (∀ u, enumerates (range_before u)) →
  (∀ i, enumerates (range_units i)) →
  (∀ n u, units !! n = Some u → is_Some (h !! u)) →
  ∃ h', same_defs h h' ∧
    ((∃ L, order range_before range_units h units = Ret (h', (L, None)) ∧
           NoDup L ∧ (∀ u, u ∈ L ↔ ∃ n, units !! n = Some u) ∧
           (∀ u v, declared_before h units u v → precedes L u v)) ∨
     (∃ msg, order range_before range_units h units
               = Ret (h', ([], Some (Errorf msg))) ∧
             ∃ x, tc (declared_before h units) x x)).
Proof.
  intros Hrb Hru Hvalid. unfold order.
  assert (Hin : ∀ i e, e ∈ range_units i units ↔ units !! e.1 = Some e.2).
  { intros i [n u]. by rewrite (Hru i units), elem_of_map_to_list. }
  destruct (order_edges_spec units (range_units 1 units)
              (foldl order_init ∅ (range_units 0 units)) h)
    as (b & h' & -> & Hcons & Hsame & Hspec).
  { intros v n u H. by apply order_init_entry in H. }
  { intros e He%Hin. split; [done|]. by eapply Hvalid. }
  exists h'. split; [done|]. simpl.
  assert (Hedge : ∀ v u, runs_before b v u ↔ declared_before h units u v).
  { intros v u. unfold runs_before. split.
    - intros [n [H|([nv v'] & He%Hin & x & Hx & H)]%Hspec];
        [by apply order_init_entry in H|]. simpl in *.
      destruct H as [(-> & Hn & Hu)|(-> & -> & depname & Hd & Hv)].
      + exists n, nv. eauto 10.
      + exists nv, depname. eauto 10.
    - intros (nu & nv & Hu & Hv & [(x & Hx & H)|(x & Hx & H)]).
      + exists nu. apply Hspec. right. exists (nv, v). rewrite Hin. split; [done|].
        exists x. simpl. eauto.
      + exists nu. apply Hspec. right. exists (nu, u). rewrite Hin. split; [done|].
        exists x. simpl. eauto 10. }
  set (U := map_img (SA:=gset ptr) units).
  destruct (order_dfs_total range_before Hrb b U) with (fuel := S (size units))
    (todo := range_units 2 units) (g := mkGraph ∅ ∅ b [])
    as [(g' & -> & Hinv & _ & Hall)|(msg & -> & x & Hx)].
  - intros v u Hv (nu & _ & Hu & _)%Hedge. by eapply elem_of_map_img_2.
  - pose proof (size_map_img units). unfold U. lia.
  - constructor; simpl;
      [done|apply NoDup_nil_2|set_solver|intros i x d Hi; by rewrite lookup_nil in Hi|done].
  - done.
  - intros [n u] He%Hin. by eapply elem_of_map_img_2.
  - left. simpl. exists (ordering g'). split; [done|].
    destruct Hinv as [Hb Hnd Ho Hs Hsu]. split_and!; [done| |].
    + intros u. rewrite <- Ho. split.
      * intros Hu%Hsu. by apply elem_of_map_img in Hu.
      * intros [n Hu]. apply (Hall (n, u)). by apply Hin.
    + intros u v Huv. pose proof Huv as (nu & nv & Hu & Hv & _).
      assert (v ∈ ordering g') as [j Hj]%list_elem_of_lookup.
      { apply Ho, (Hall (nv, v)). by apply Hin. }
      destruct (Hs j v u Hj) as (i & Hi & Hiu); [by apply Hedge|].
      by exists i, j.
  - right. simpl. exists msg. split; [done|]. exists x. apply tc_flip.
    eapply tc_congruence with (f := id); [|exact Hx]. intros ??. apply Hedge.
Qed.

(** X7.  [order] always returns for a request of units of the store, in
    whatever order the maps are walked, and it returns an error exactly when
    the declared edges of the request have a cycle; with the error comes no
    ordering. *)
Theorem order_fails_exactly_on_cycles range_before range_units h units :
  (∀ u, enumerates (range_before u)) →
  (∀ i, enumerates (range_units i)) →
  (∀ n u, units !! n = Some u → is_Some (h !! u)) →
  ∃ h' L err,
    order range_before range_units h units = Ret (h', (L, err)) ∧
    (err = None ↔ ∀ u, ¬ tc (declared_before h units) u u) ∧
    (err ≠ None → L = []).
Proof.
  intros Hrb Hru Hvalid.
  destruct (order_outcome range_before range_units h units Hrb Hru Hvalid)
    as (h' & _ & [(L & -> & Hnd & _ & Hprec)|(msg & -> & x & Hx)]).
  - exists h', L, None. split_and!; [done| |done].
    split; [intros _|done]. by eapply precedes_acyclic.
  - exists h', [], (Some (Errorf msg)). split_and!; [done| |done].
    split; [done|]. intros Hacyc. by destruct (Hacyc x).
Qed.

Lemma order_fails_exactly_on_cycles_witness :
  ∃ h' L err,
    order (λ _ m, map_to_list m) (λ _ m, map_to_list m) (mem two_cycle)
      (loaded two_cycle) = Ret (h', (L, err)) ∧
    (err = None ↔ ∀ u, ¬ tc (declared_before (mem two_cycle) (loaded two_cycle)) u u) ∧
    (err ≠ None → L = []).
Proof.
  apply order_fails_exactly_on_cycles.
  - intros u m. reflexivity.
  - intros i m. reflexivity.
  - change (map_Forall (λ _ u, is_Some (mem two_cycle !! u)) (loaded two_cycle)).
    apply (bool_decide_unpack _). vm_compute. exact I.
Defined.




Lemma loadDeps_loop_prefix Join fs sys (full : gmap string ptr) :
  full ⊆ loaded sys →
  (∀ n u, full !! n = Some u →
     ∃ x, mem sys !! u = Some x ∧
          Forall (λ m, is_Some (full !! m)) (Wants (u_def x))) →
  ∀ pre fuel units tail,
    Forall (λ n, is_Some (full !! n)) pre → units ⊆ full →
    ∃ units' extra,
      loadDeps_loop Join fs (length pre + fuel) sys units (pre ++ tail)
        = loadDeps_loop Join fs fuel sys units' (tail ++ extra) ∧
      units' ⊆ full.
Proof.
  intros Hfull Hdefs.
  induction pre as [|n pre IH]; intros fuel units tail Hpre Hsub.
  - exists units, []. by rewrite app_nil_r.
  - apply Forall_cons in Hpre as [[u Hn] Hpre].
    change (length (n :: pre) + fuel) with (S (length pre + fuel)).
    change ((n :: pre) ++ tail) with (n :: (pre ++ tail)).
    cbn [loadDeps_loop].
    destruct (decide (is_Some (units !! n))) as [Hadded|Hnew]; [by apply IH|].
    rewrite (Get_loaded Join fs sys n u)
      by (eapply lookup_weaken; [exact Hn|exact Hfull]). simpl.
    destruct (Hdefs n u Hn) as (x & Hx & Hwants).
    unfold deref. rewrite Hx. simpl.
    assert (Hsub1 : <[n := u]> units ⊆ full) by by apply insert_subseteq_l.
    destruct (loadDeps_wants_within Join fs sys full _ Hfull Hwants _ Hsub1)
      as (units1 & -> & H1 & H2). simpl.
    rewrite <- app_assoc.
    destruct (IH fuel units1 (tail ++ Requires (u_def x)) Hpre H2)
      as (units' & extra & -> & Hsub').
    exists units', (Requires (u_def x) ++ extra). by rewrite app_assoc.
Qed.

(** X9.  [Start] fails at the first requested name that [Get] cannot
    resolve.  When the names before it in the request are loaded, as are
    the names their units want, [Start] returns an error whose text is
    ["Error loading dependency: "] followed by that name, in place of the
    error of [Get]; it has launched no unit, and the registry is as that
    [Get] left it. *)
Theorem Start_reports_unresolved_name range_before range_units Join fs sys
    (full : gmap string ptr) pre name rest sys' u e fuel :
  full ⊆ loaded sys →
  (∀ n u, full !! n = Some u →
     ∃ x, mem sys !! u = Some x ∧
          Forall (λ m, is_Some (full !! m)) (Wants (u_def x))) →
  Forall (λ n, is_Some (full !! n)) pre →
  Get Join fs sys name = Ret (sys', u, Some e) →
  Start range_before range_units Join fs (length pre + S fuel) sys
    (pre ++ name :: rest)
    = Ret (sys', [], Some (Errorf ("Error loading dependency: " ++ name)%string)).
Proof.
  intros Hfull Hdefs Hpre Hget. unfold Start, loadDeps.
  destruct (loadDeps_loop_prefix Join fs sys full Hfull Hdefs pre (S fuel) ∅
              (name :: rest) Hpre) as (units' & extra & -> & Hsub).
  { apply map_empty_subseteq. }
  change ((name :: rest) ++ extra) with (name :: (rest ++ extra)).
  cbn [loadDeps_loop].
  rewrite decide_False.
  - by rewrite Hget.
  - intros [v Hv].
    assert (Hl : loaded sys !! name = Some v).
    { eapply lookup_weaken; [|exact Hfull]. by eapply lookup_weaken. }
    rewrite (Get_loaded Join fs sys name v Hl) in Hget. discriminate.
Qed.

Lemma Start_reports_unresolved_name_witness :
  Start (λ _ m, map_to_list m) (λ _ m, map_to_list m) join empty_fs 4
    three_loaded ["c.service"; "b.service"; "x.mount"; "a.service"]%string
    = Ret (three_loaded, [],
           Some (Errorf "Error loading dependency: x.mount"%string)).
Proof.
  apply (Start_reports_unresolved_name _ _ join empty_fs three_loaded
           (<["b.service"%string := 2]> (<["c.service"%string := 3]> ∅))
           ["c.service"; "b.service"]%string "x.mount" ["a.service"%string]
           three_loaded nil ErrUnknownType 1).
  - apply (bool_decide_unpack _). vm_compute. exact I.
  - intros n v Hn. apply lookup_insert_Some in Hn as [[<- <-]|[_ Hn]].
    { eexists. split; [reflexivity|]. constructor. }
    apply lookup_insert_Some in Hn as [[<- <-]|[_ Hn]].
    { eexists. split; [reflexivity|]. constructor. }
    rewrite lookup_empty in Hn. discriminate.
  - repeat constructor; apply (bool_decide_unpack _); vm_compute; exact I.
  - vm_compute. reflexivity.
Defined.

Lemma Load_paths_success fs sys name ps sys' u :
  Load_paths fs sys name ps = Ret (sys', u, None) → loaded sys' !! name = Some u.
Proof.
  induction ps as [|p ps IH]; simpl; [done|].
  destruct (fs p) as [file| |msg]; [|done..].
  destruct (match parsed sys !! name with Some _ => _ | None => _ end)
    as [[sys1 u1]| |]; [|done..]. simpl.
  unfold deref. destruct (mem sys1 !! u1) as [x|]; [|done]. simpl.
  destruct (match stat_err file with Some _ => _ | None => _ end); [done|].
  destruct (parse file); [|done..].
  intros [= <- <-]. simpl. by rewrite lookup_insert_eq.
Qed.

(** X10.  A name that [Get] has resolved without error stays resolved: the
    next [Get] for it returns the same unit and the same registry without
    looking at the file system. *)
Theorem Get_is_cached Join fs sys name sys' u :
  Get Join fs sys name = Ret (sys', u, None) →
  ∀ Join' fs', Get Join' fs' sys' name = Ret (sys', u, None).
Proof.
  unfold Get at 1. intros Hget Join' fs'.
  assert (loaded sys' !! name = Some u) as Hl.
  { destruct (loaded sys !! name) as [u0|] eqn:Hhit.
    - by injection Hget as <- <-.
    - unfold Load in Hget. destruct (negb (Supported name)); [done|].
      by eapply Load_paths_success. }
  unfold Get. by rewrite Hl.
Qed.

Lemma Get_is_cached_witness :
  ∃ sys' u, Get join fs_service (mkDaemon ∅ ∅ ∅ ∅ ∅ ["/etc/systemd/system"%string])
              "foo.service" = Ret (sys', u, None) ∧
            Get join empty_fs sys' "foo.service" = Ret (sys', u, None).
Proof.
  destruct (Get join fs_service (mkDaemon ∅ ∅ ∅ ∅ ∅ ["/etc/systemd/system"%string])
              "foo.service") as [[[sys' u] [e|]]| |] eqn:Hget;
    try (vm_compute in Hget; discriminate).
  exists sys', u. split; [reflexivity|].
  exact (Get_is_cached _ _ _ _ _ _ Hget join empty_fs).
Defined.

Lemma order_edges_Panic units msg l :
  foldl (order_edges units) (Panic msg) l = Panic msg.
Proof. induction l as [|e l IH]; simpl; [done|]. apply IH. Qed.

Lemma order_requires_lookup_None units unit l p : ∀ h,
  h !! p = None → foldl (order_requires units unit) h l !! p = None.
Proof.
  induction l as [|dep l IH]; intros h Hp; simpl; [done|]. apply IH.
  unfold order_requires. rewrite lookup_alter. case_decide; [subst|done].
  by rewrite Hp.
Qed.

Lemma order_edges_nil_unit units l p : ∀ b h,
  h !! p = None → (∃ n, (n, p) ∈ l) →
  foldl (order_edges units) (Ret (b, h)) l
    = Panic "invalid memory address or nil pointer dereference".
Proof.
  induction l as [|e l IH]; intros b h Hp [n Hin]; [by apply elem_of_nil in Hin|].
  simpl. unfold deref. destruct (h !! e.2) as [x|] eqn:Hx; simpl.
  - apply IH; [by apply order_requires_lookup_None|].
    apply elem_of_cons in Hin as [Heq|Hin]; [|by exists n].
    subst e. simpl in Hx. congruence.
  - apply order_edges_Panic.
Qed.

(** X11.  A wanted name that [Get] cannot resolve is not left out of the
    request: [loadDeps] stores the nil pointer that [Get] returned under that
    name, and [order] then calls [After()] on it.  For a loaded unit [A] whose
    only dependency is a wanted name with an unsupported extension,
    [Start(A)] panics with a nil dereference. *)
Theorem Start_panics_on_unresolved_want range_before range_units Join fs sys
    A a x w fuel :
  (∀ i, enumerates (range_units i)) →
  loaded sys !! A = Some a → mem sys !! a = Some x →
  Requires (u_def x) = [] → Wants (u_def x) = [w] →
  w ≠ A → loaded sys !! w = None → Supported w = false →
  mem sys !! nil = None →
  Start range_before range_units Join fs (S fuel) sys [A]
    = Panic "invalid memory address or nil pointer dereference".
Proof.
  intros Hru HA Hx Hreq Hwants HwA Hw Hsup Hnil.
  unfold Start, loadDeps. simpl.
  rewrite decide_False by (rewrite lookup_empty; by intros [? ?]).
  rewrite (Get_loaded Join fs sys A a HA). simpl.
  unfold deref. rewrite Hx. simpl. rewrite Hwants, Hreq. simpl.
  rewrite decide_False
    by (rewrite lookup_insert_ne, lookup_empty by done; by intros [? ?]).
  unfold Get, Load. rewrite Hw, Hsup. simpl.
  assert (Hloop : loadDeps_loop Join fs fuel sys (<[w := nil]> (<[A := a]> ∅)) []
                  = Ret (sys, <[w := nil]> (<[A := a]> ∅), None))
    by (by destruct fuel).
  rewrite Hloop. simpl.
  unfold order. rewrite (order_edges_nil_unit _ _ nil); [done|done|].
  exists w. rewrite (Hru 1 _). apply elem_of_map_to_list, lookup_insert_eq.
Qed.

Lemma Start_panics_on_unresolved_want_witness :
  Start (λ _ m, map_to_list m) (λ _ m, map_to_list m) join empty_fs 1
    wanting ["a.service"%string]
    = Panic "invalid memory address or nil pointer dereference".
Proof.
  apply (Start_panics_on_unresolved_want _ _ join empty_fs wanting
           "a.service" 1
           (mkUnit "/lib/a.service" Loaded ∅ Service
              (mkDef [] ["x.mount"%string] [] [] []) [])
           "x.mount" 0).
  - intros i m. reflexivity.
  - reflexivity.
  - reflexivity.
  - reflexivity.
  - reflexivity.
  - discriminate.
  - reflexivity.
  - reflexivity.
  - reflexivity.
Defined.

End ordering_more.

(** ** The second registry *)

Section registry_more.

Import Daemon2.

Open Scope string_scope.

Lemma newUnit_fresh sys name v :
  let '(sys', u) := newUnit sys name v in
  u ≠ nil ∧ mem sys !! u = None ∧
  (∀ p, p ≠ u → mem sys' !! p = mem sys !! p) ∧
  (∀ n, n ≠ name → n ≠ TrimSuffix name ".service" →
        units sys' !! n = units sys !! n) ∧
  paths sys' = paths sys.
Proof.
  unfold newUnit. set (u := fresh _). simpl.
  assert (Hfresh : u ∉ ({[nil]} ∪ dom (mem sys) : gset ptr)) by apply is_fresh.
  split_and!.
  - set_solver.
  - apply not_elem_of_dom. set_solver.
  - intros p Hp. by rewrite lookup_insert_ne.
  - intros n Hn Ha. destruct (HasSuffix name ".service");
      by rewrite !lookup_insert_ne.
  - done.
Qed.

(** X12.  [Supervise] on a name that is not registered creates a unit at a
    new address and gives it the name; the unit is what [Unit] returns for
    the name afterwards, the other units and the other names (but the
    trimmed one) are as before, and a second [Supervise] of the name fails
    with [ErrExists].  On a name that is registered, [Supervise] fails with
    [ErrExists] and changes nothing. *)
Theorem Supervise_registers_once sys name v :
  (units sys !! name = None →
     ∃ sys' u,
       Supervise sys name v = (sys', u, None) ∧
       u ≠ nil ∧ mem sys !! u = None ∧
       (∃ x, mem sys' !! u = Some x ∧ u_name x = name) ∧
       Unit_ sys' name = (u, None) ∧
       (∀ p, p ≠ u → mem sys' !! p = mem sys !! p) ∧
       (∀ n, n ≠ name → n ≠ TrimSuffix name ".service" →
             units sys' !! n = units sys !! n) ∧
       ∀ v', Supervise sys' name v' = (sys', nil, Some ErrExists)) ∧
  (is_Some (units sys !! name) →
     Supervise sys name v = (sys, nil, Some ErrExists)).
Proof.
  split.
  - intros Hfree. unfold Supervise, Unit_ at 1. rewrite Hfree.
    pose proof (newUnit_registered sys name v) as Hreg.
    pose proof (newUnit_fresh sys name v) as Hfr.
    destruct (newUnit sys name v) as [sys' u].
    destruct Hreg as (Hn & _ & Hm). destruct Hfr as (Hnil & Hnew & Hmem & Hunits & _).
    exists sys', u. unfold Supervise, Unit_. rewrite Hn.
    split_and!; try done. by eexists.
  - intros [u Hu]. unfold Supervise, Unit_. by rewrite Hu.
Qed.

Lemma Supervise_registers_once_witness :
  ∃ sys' u,
    Supervise fresh_registry "db.service" (mkInterface Service no_def Active)
      = (sys', u, None) ∧
    Unit_ sys' "db.service" = (u, None) ∧
    Supervise sys' "db.service" (mkInterface Service no_def Active)
      = (sys', nil, Some ErrExists).
Proof.
  destruct (Supervise_registers_once fresh_registry "db.service"
              (mkInterface Service no_def Active)) as [Hnew _].
  destruct Hnew as (sys' & u & H1 & _ & _ & _ & H2 & _ & _ & H3); [reflexivity|].
  exists sys', u. split; [exact H1|]. split; [exact H2|apply H3].
Defined.

Lemma Errorf_log_fold y msgs :
  foldl (λ x msg, Errorf_log msg x) y msgs
    = mkUnit (u_name y) (u_path y) (u_load y) (u_Interface y)
        (u_Log y ++ msgs)%list.
Proof.
  revert y. induction msgs as [|m msgs IH]; intros y; simpl.
  - rewrite app_nil_r. by destruct y.
  - rewrite IH. simpl. by rewrite <- app_assoc.
Qed.

Lemma load_file_outcome sys u path file x :
  mem sys !! u = Some x →
  ∃ sys' x' e,
    load_file sys u path file = Ret (sys', u, e) ∧
    mem sys' = <[u := x']> (mem sys) ∧
    units sys' = <[path := u]> (units sys) ∧ paths sys' = paths sys ∧
    u_path x' = path ∧ u_name x' = u_name x.
Proof.
  intros Hx. unfold load_file, deref. rewrite Hx. simpl.
  destruct (stat_err file) as [e|]; simpl; [by eexists _, _, _|].
  destruct (is_dir file); simpl; [by eexists _, _, _|].
  destruct (parse file) as [d|msgs|msg]; simpl; [by eexists _, _, _| |by eexists _, _, _].
  rewrite Errorf_log_fold. by eexists _, _, _.
Qed.

Lemma load_unit_of_registered sys name u :
  units sys !! name = Some u → load_unit sys name = Ret (sys, u).
Proof. unfold load_unit, Unit_. by intros ->. Qed.

(** X13.  Loading a name that is registered never makes a second unit: the
    store keeps its set of addresses, the name stays registered for the same
    unit, and [load] returns that unit, or nil with the registry untouched
    when no candidate path could be opened. *)
Theorem load_keeps_identity Join fs sys name u sys' u' e :
  units sys !! name = Some u → registry_ok sys →
  load Join fs sys name = Ret (sys', u', e) →
  dom (mem sys') = dom (mem sys) ∧ units sys' !! name = Some u ∧
  (u' = u ∨ (u' = nil ∧ sys' = sys ∧ e ≠ None)).
Proof.
  intros Hname Hok. unfold load.
  destruct (negb (Supported name)).
  { intros [= <- <- <-]. split_and!; [done..|]. by right. }
  induction (candidates Join sys name) as [|p ps IH]; simpl.
  { intros [= <- <- <-]. split_and!; [done..|]. by right. }
  destruct (fs p) as [file| |msg]; [|done|].
  - rewrite (load_unit_of_registered sys name u Hname). simpl.
    destruct (Hok _ _ Hname) as [x Hx].
    destruct (load_file_outcome sys u p file x Hx)
      as (sys1 & x' & e1 & -> & Hmem & Hunits & _).
    intros [= <- <- <-]. rewrite Hmem, Hunits. split_and!; [| |by left].
    + rewrite dom_insert_L. apply elem_of_dom_2 in Hx. set_solver.
    + rewrite lookup_insert. by case_decide.
  - intros [= <- <- <-]. split_and!; [done..|]. by right.
Qed.

Lemma load_keeps_identity_witness :
  ∃ sys' u' e,
    load join fs_any (three_services Active) "A.service" = Ret (sys', u', e) ∧
    dom (mem sys') = dom (mem (three_services Active)) ∧
    units sys' !! "A.service" = Some 1 ∧
    (u' = 1 ∨ (u' = nil ∧ sys' = three_services Active ∧ e ≠ None)).
Proof.
  destruct (load join fs_any (three_services Active) "A.service")
    as [[[sys' u'] e]| |] eqn:Hload; try (vm_compute in Hload; discriminate).
  exists sys', u', e. split; [reflexivity|].
  apply (load_keeps_identity join fs_any (three_services Active) "A.service").
  - reflexivity.
  - intros n u Hu. apply elem_of_map_to_list in Hu.
    assert (Forall (λ e, is_Some (mem (three_services Active) !! e.2))
              (map_to_list (units (three_services Active)))) as Hall.
    { apply (bool_decide_unpack _). vm_compute. exact I. }
    rewrite Forall_forall in Hall. exact (Hall _ Hu).
  - exact Hload.
Defined.

(** X14.  When the first candidate path that exists holds a regular file
    whose definition is rejected with a list of errors, [load] returns the
    unit together with that error: the unit is registered under the name and
    under the path, is in load state Error, carries the path, and has the
    line ["Definition is invalid:"] and the messages appended to its log. *)
Theorem load_records_invalid_definition Join fs sys name pre p post file msgs :
  Supported name = true → registry_ok sys →
  candidates Join sys name = (pre ++ p :: post)%list →
  (∀ q, q ∈ pre → fs q = NotExist) →
  fs p = Opened file → stat_err file = None → is_dir file = false →
  parse file = DefineMulti msgs →
  ∃ sys' u x old,
    load Join fs sys name = Ret (sys', u, Some (MultiError msgs)) ∧
    mem sys' !! u = Some x ∧ u_load x = LoadError ∧ u_path x = p ∧
    u_Log x = (old ++ "Definition is invalid:" :: msgs)%list ∧
    units sys' !! name = Some u ∧ units sys' !! p = Some u.
Proof.
  intros Hs Hok Hc Hpre Hp Hstat Hdir Hparse.
  assert (Hl : load Join fs sys name = load_paths fs sys name (p :: post)).
  { unfold load. rewrite Hs, Hc. simpl. by apply load_paths_skip. }
  rewrite Hl. simpl. rewrite Hp.
  destruct (load_unit_ok sys name Hs Hok) as (sys1 & u & x & Hunit & Hx).
  rewrite Hunit. simpl.
  apply load_unit_registered in Hunit as (Hn & _).
  unfold load_file, deref. rewrite Hx. simpl. rewrite Hstat, Hdir, Hparse.
  rewrite Errorf_log_fold. simpl.
  eexists _, _, _, (u_Log x). split; [done|]. simpl. rewrite lookup_insert_eq.
  split_and!; [done|done|done|by rewrite <- app_assoc| |].
  - rewrite lookup_insert. by case_decide.
  - by rewrite lookup_insert_eq.
Qed.

Lemma load_records_invalid_definition_witness :
  ∃ sys' u x old,
    load join fs_invalid fresh_registry "foo.service"
      = Ret (sys', u, Some (MultiError ["line 3: unknown key"])) ∧
    mem sys' !! u = Some x ∧ u_load x = LoadError ∧
    u_path x = "/lib/systemd/system/foo.service" ∧
    u_Log x = (old ++ ["Definition is invalid:"; "line 3: unknown key"])%list ∧
    units sys' !! "foo.service" = Some u ∧
    units sys' !! "/lib/systemd/system/foo.service" = Some u.
Proof.
  apply (load_records_invalid_definition join fs_invalid fresh_registry
           "foo.service" ["/etc/systemd/system/foo.service"]
           "/lib/systemd/system/foo.service" []
           (mkFile None false (DefineMulti ["line 3: unknown key"]) None)).
  - reflexivity.
  - intros n u H. vm_compute in H. discriminate.
  - reflexivity.
  - intros q Hq. apply list_elem_of_singleton in Hq. subst q. reflexivity.
  - reflexivity.
  - reflexivity.
  - reflexivity.
  - reflexivity.
Defined.

Lemma string_length_app (s t : string) :
  String.length (s ++ t) = (String.length s + String.length t)%nat.
Proof.
  induction s as [|c s IH]; [done|].
  change (S (String.length (s ++ t)) = S (String.length s + String.length t)).
  by rewrite IH.
Qed.

Lemma substring_all (t : string) : String.substring 0 (String.length t) t = t.
Proof. induction t as [|c t IH]; simpl; [done|]. by rewrite IH. Qed.

Lemma substring_app_r (s t : string) :
  String.substring (String.length s) (String.length t) (s ++ t) = t.
Proof.
  induction s as [|c s IH]; [apply substring_all|].
  change (String.substring (String.length s) (String.length t) (s ++ t) = t).
  exact IH.
Qed.

Lemma substring_app_l (s t : string) :
  String.substring 0 (String.length s) (s ++ t) = s.
Proof.
  induction s as [|c s IH]; [by destruct t|].
  change (String c (String.substring 0 (String.length s) (s ++ t)) = String c s).
  by rewrite IH.
Qed.

Lemma get_app_r (s t : string) k :
  String.get (String.length s + k) (s ++ t) = String.get k t.
Proof.
  induction s as [|c s IH]; [done|].
  change (String.get (String.length s + k) (s ++ t) = String.get k t).
  exact IH.
Qed.

Lemma HasSuffix_app (s t : string) : HasSuffix (s ++ t) t = true.
Proof.
  unfold HasSuffix. rewrite string_length_app.
  rewrite bool_decide_eq_true_2 by lia.
  replace (String.length s + String.length t - String.length t)%nat
    with (String.length s) by lia.
  by rewrite substring_app_r, bool_decide_eq_true_2.
Qed.

Lemma TrimSuffix_app (s t : string) : TrimSuffix (s ++ t) t = s.
Proof.
  unfold TrimSuffix. rewrite HasSuffix_app, string_length_app.
  replace (String.length s + String.length t - String.length t)%nat
    with (String.length s) by lia.
  apply substring_app_l.
Qed.

Lemma Ext_service (s : string) : Ext (s ++ ".service") = ".service".
Proof.
  unfold Ext. rewrite string_length_app.
  change (String.length ".service") with 8%nat.
  assert (Hstep : ∀ k c, String.get k ".service" = Some c →
            c ≠ "/"%char → c ≠ "."%char →
            Ext_loop (s ++ ".service") (String.length s + S k)
              = Ext_loop (s ++ ".service") (String.length s + k)).
  { intros k c Hk Hsep Hdot. rewrite Nat.add_succ_r. simpl.
    rewrite get_app_r, Hk. unfold IsPathSeparator.
    by rewrite !bool_decide_eq_false_2. }
  do 7 (erewrite Hstep; [|reflexivity|discriminate|discriminate]).
  replace (String.length s + 1)%nat with (S (String.length s + 0)) by lia.
  simpl. rewrite get_app_r. simpl. rewrite string_length_app.
  replace (String.length s + String.length ".service" - (String.length s + 0))%nat
    with (String.length ".service") by lia.
  rewrite Nat.add_0_r. apply substring_app_r.
Qed.

(** X15.  Whatever the base name [s], the name [s.service] is a supported
    kind, and a unit created under it is registered under [s] as well: [Unit]
    returns the same unit for both, and a later [Supervise] of [s] fails with
    [ErrExists]. *)
Theorem service_is_registered_under_base_name sys (s : string) v :
  Supported (s ++ ".service") = true ∧
  ∃ sys' u,
    newUnit sys (s ++ ".service") v = (sys', u) ∧
    Unit_ sys' (s ++ ".service") = (u, None) ∧ Unit_ sys' s = (u, None) ∧
    ∀ v', Supervise sys' s v' = (sys', nil, Some ErrExists).
Proof.
  split.
  - unfold Supported. by rewrite Ext_service.
  - pose proof (newUnit_registered sys (s ++ ".service") v) as Hreg.
    destruct (newUnit sys (s ++ ".service") v) as [sys' u].
    destruct Hreg as (Hn & Ha & _). specialize (Ha (HasSuffix_app _ _)).
    rewrite TrimSuffix_app in Ha.
    exists sys', u. unfold Supervise, Unit_. by rewrite Hn, Ha.
Qed.

Lemma newUnit_wf sys name v :
  registry_wf sys →
  registry_wf (newUnit sys name v).1 ∧ (newUnit sys name v).2 ≠ nil ∧
  is_Some (mem (newUnit sys name v).1 !! (newUnit sys name v).2) ∧
  (∀ p y, mem sys !! p = Some y → mem (newUnit sys name v).1 !! p = Some y) ∧
  paths (newUnit sys name v).1 = paths sys.
Proof.
  intros [Hok Hnil]. unfold newUnit. set (u := fresh _). simpl.
  assert (Hfresh : u ∉ ({[nil]} ∪ dom (mem sys) : gset ptr)) by apply is_fresh.
  assert (Hu : u ≠ nil) by set_solver.
  assert (Hnew : mem sys !! u = None) by (apply not_elem_of_dom; set_solver).
  assert (Hold : ∀ p y, mem sys !! p = Some y →
                        <[u := mkUnit name "" Unloaded v []]> (mem sys) !! p
                        = Some y).
  { intros p y Hp. rewrite lookup_insert_ne; [done|]. by intros ->; simplify_eq. }
  split_and!; [split| | | |]; cbn [units mem]; try done.
  - intros n p Hn. cbn [units mem] in *.
    assert (p = u ∨ units sys !! n = Some p) as [->|Hp].
    { destruct (HasSuffix name ".service").
      - rewrite lookup_insert in Hn. case_decide; [left; congruence|].
        rewrite lookup_insert in Hn. case_decide; [left; congruence|by right].
      - rewrite lookup_insert in Hn. case_decide; [left; congruence|by right]. }
    + rewrite lookup_insert_eq. by eexists.
    + destruct (Hok _ _ Hp) as [y Hy]. exists y. by apply Hold.
  - by rewrite lookup_insert_ne.
  - rewrite lookup_insert_eq. by eexists.
Qed.

Lemma load_unit_wf sys name :
  Supported name = true → registry_wf sys →
  ∃ sys1 u x,
    load_unit sys name = Ret (sys1, u) ∧ mem sys1 !! u = Some x ∧ u ≠ nil ∧
    registry_wf sys1 ∧
    (∀ p y, mem sys !! p = Some y → mem sys1 !! p = Some y) ∧
    paths sys1 = paths sys.
Proof.
  intros Hs Hwf. unfold load_unit, Unit_.
  destruct (units sys !! name) as [u|] eqn:Hname.
  - destruct Hwf as [Hok Hnil]. destruct (Hok _ _ Hname) as [x Hx].
    exists sys, u, x. split_and!; try done. by intros ->; simplify_eq.
  - apply Supported_Ext in Hs.
    assert (∃ k, (if decide (Ext name = ".target") then Ret Target
                  else if decide (Ext name = ".service") then Ret Service
                  else Panic "Trying to load an unsupported unit type")
                 = Ret k) as [k ->].
    { repeat case_decide; naive_solver. }
    simpl.
    destruct (newUnit_wf sys name (mkInterface k no_def Inactive) Hwf)
      as (Hwf1 & Hu & [x Hx] & Hold & Hp).
    destruct (newUnit _ _ _) as [sys1 u]. by exists sys1, u, x.
Qed.

Lemma load_file_wf sys u path file x :
  registry_wf sys → mem sys !! u = Some x →
  ∃ sys' e,
    load_file sys u path file = Ret (sys', u, e) ∧ registry_wf sys' ∧
    is_Some (mem sys' !! u) ∧
    (∀ p y, mem sys !! p = Some y →
            ∃ y', mem sys' !! p = Some y' ∧ u_name y' = u_name y) ∧
    paths sys' = paths sys.
Proof.
  intros [Hok Hnil] Hx.
  destruct (load_file_outcome sys u path file x Hx)
    as (sys' & x' & e & Hload & Hmem & Hunits & Hpaths & _ & Hname).
  exists sys', e. split_and!; [done|split| | |done].
  - intros n p. rewrite Hunits, Hmem, lookup_insert. case_decide.
    + intros [= <-]. rewrite lookup_insert_eq. by eexists.
    + intros Hp. destruct (Hok _ _ Hp) as [y Hy].
      rewrite lookup_insert. case_decide; by eexists.
  - rewrite Hmem. rewrite lookup_insert_ne; [done|]. intros ->. congruence.
  - rewrite Hmem, lookup_insert_eq. by eexists.
  - intros p y Hp. rewrite Hmem. destruct (decide (u = p)) as [->|Hne].
    + rewrite lookup_insert_eq. simplify_eq. by exists x'.
    + rewrite lookup_insert_ne by done. by exists y.
Qed.

Lemma load_wf Join fs sys name :
  registry_wf sys →
  ∃ sys' u e,
    load Join fs sys name = Ret (sys', u, e) ∧ registry_wf sys' ∧
    (∀ p y, mem sys !! p = Some y →
            ∃ y', mem sys' !! p = Some y' ∧ u_name y' = u_name y) ∧
    (u = nil → e ≠ None ∧ sys' = sys) ∧
    (u ≠ nil → is_Some (mem sys' !! u)) ∧
    paths sys' = paths sys.
Proof.
  intros Hwf. unfold load.
  assert (Hsame : ∀ p y, mem sys !! p = Some y →
                         ∃ y', mem sys !! p = Some y' ∧ u_name y' = u_name y)
    by eauto.
  destruct (Supported name) eqn:Hs; simpl.
  2: { exists sys, nil, (Some ErrUnknownType).
       by refine (conj eq_refl (conj Hwf (conj _ (conj _ (conj _ _))))). }
  induction (candidates Join sys name) as [|q ps IH]; simpl.
  { exists sys, nil, (Some ErrNotFound).
    by refine (conj eq_refl (conj Hwf (conj _ (conj _ (conj _ _))))). }
  destruct (fs q) as [file| |msg]; [|done|].
  2: { exists sys, nil, (Some (OsError msg)).
       by refine (conj eq_refl (conj Hwf (conj _ (conj _ (conj _ _))))). }
  destruct (load_unit_wf sys name Hs Hwf)
    as (sys1 & u & x & -> & Hx & Hu & Hwf1 & Hold & Hp1). simpl.
  destruct (load_file_wf sys1 u q file x Hwf1 Hx)
    as (sys' & e & -> & Hwf' & Hu' & Hkeep & Hp').
  exists sys', u, e.
  refine (conj eq_refl (conj Hwf' (conj _ (conj _ (conj _ _))))).
  - intros p y Hy. apply Hkeep. by apply Hold.
  - done.
  - done.
  - congruence.
Qed.

(** X16.  On a registry whose registered pointers are all units of the store,
    [Get] never panics and leaves such a registry behind.  It deletes no unit
    and renames none, and keeps the search paths.  It returns nil only
    together with an error and with the registry untouched; any other
    pointer it returns is a unit of the store. *)
Theorem Get_keeps_registry_consistent Join fs sys name :
  registry_wf sys →
  ∃ sys' u e,
    Get Join fs sys name = Ret (sys', u, e) ∧ registry_wf sys' ∧
    (∀ p y, mem sys !! p = Some y →
            ∃ y', mem sys' !! p = Some y' ∧ u_name y' = u_name y) ∧
    (u = nil → e ≠ None ∧ sys' = sys) ∧
    (u ≠ nil → is_Some (mem sys' !! u)) ∧
    paths sys' = paths sys.
Proof.
  intros Hwf. unfold Get, Unit_.
  destruct (units sys !! name) as [u|] eqn:Hname; [|by apply load_wf].
  destruct Hwf as [Hok Hnil]. destruct (Hok _ _ Hname) as [x Hx].
  unfold deref. rewrite Hx. simpl.
  destruct (IsLoaded x); simpl; [|by apply load_wf].
  exists sys, u, None.
  refine (conj eq_refl (conj (conj Hok Hnil) (conj _ (conj _ (conj _ _))))).
  - eauto.
  - intros ->. congruence.
  - eauto.
  - done.
Qed.

Lemma Get_keeps_registry_consistent_witness :
  ∃ sys' u e,
    Get join fs_service fresh_registry "foo.service" = Ret (sys', u, e) ∧
    registry_wf sys' ∧
    (∀ p y, mem fresh_registry !! p = Some y →
            ∃ y', mem sys' !! p = Some y' ∧ u_name y' = u_name y) ∧
    (u = nil → e ≠ None ∧ sys' = fresh_registry) ∧
    (u ≠ nil → is_Some (mem sys' !! u)) ∧
    paths sys' = paths fresh_registry.
Proof.
  apply (Get_keeps_registry_consistent join fs_service fresh_registry
           "foo.service").
  split; [intros n u Hn; vm_compute in Hn; discriminate|reflexivity].
Defined.

End registry_more.

(** ** The first registry *)

Section first_registry_more.

Import Daemon1.

Open Scope string_scope.

Lemma Load_paths_wf fs sys name ps :
  Daemon1_wf sys → Supported name = true →
  (∀ q, q ∈ ps → Ext q = Ext name) →
  ∃ sys' u e,
    Load_paths fs sys name ps = Ret (sys', u, e) ∧ Daemon1_wf sys' ∧
    (∀ p, is_Some (mem sys !! p) → is_Some (mem sys' !! p)) ∧
    (∀ p n, names sys !! p = Some n → names sys' !! p = Some n) ∧
    active sys' = active sys ∧ Paths sys' = Paths sys ∧
    (u = nil → e ≠ None ∧ sys' = sys) ∧
    (u ≠ nil → is_Some (mem sys' !! u) ∧ is_Some (names sys' !! u)).
Proof.
  intros Hwf Hs. induction ps as [|q ps IH]; intros Hext; cbn [Load_paths].
  { exists sys, nil, (Some ErrNotFound).
    by refine (conj eq_refl (conj Hwf (conj _ (conj _ (conj _ (conj _ (conj _ _))))))). }
  destruct (fs q) as [file| |msg].
  2: { apply IH. intros q' Hq'. apply Hext. by right. }
  2: { exists sys, nil, (Some (OsError msg)).
       by refine (conj eq_refl (conj Hwf (conj _ (conj _ (conj _ (conj _ (conj _ _))))))). }
  assert (∃ sys1 u x,
            match parsed sys !! name with
            | Some u => Ret (sys, u)
            | None =>
                k ← (if decide (Ext q = ".target") then Ret Target
                     else if decide (Ext q = ".service") then Ret Service
                     else Panic "Trying to load an unsupported unit type");
                let u := fresh ({[nil]} ∪ dom (mem sys)) in
                let parsed1 := <[name := u]> (parsed sys) in
                Ret (mkDaemon (<[u := NewUnit k]> (mem sys)) (active sys)
                       (loaded sys)
                       (if decide (name = q) then parsed1
                        else <[q := u]> parsed1)
                       (<[u := name]> (names sys)) (Paths sys), u)
            end = Ret (sys1, u) ∧
            Daemon1_wf sys1 ∧ mem sys1 !! u = Some x ∧ u ≠ nil ∧
            is_Some (names sys1 !! u) ∧
            (∀ p, is_Some (mem sys !! p) → is_Some (mem sys1 !! p)) ∧
            (∀ p n, names sys !! p = Some n → names sys1 !! p = Some n) ∧
            active sys1 = active sys ∧ Paths sys1 = Paths sys)
    as (sys1 & u & x & Hc & Hwf1 & Hx & Hu & Hnamed & Hmem1 & Hnames1 & Hact1 & Hp1).
  { destruct Hwf as (Hnil & Hreg & Hnm).
    destruct (parsed sys !! name) as [u|] eqn:Hname.
    - destruct (Hreg name u (or_introl Hname)) as [[x Hx] Hn].
      exists sys, u, x. split_and!; try done. intros ->. congruence.
    - rewrite (Hext q) by left. apply Supported_Ext in Hs.
      assert (∃ k, (if decide (Ext name = ".target") then Ret Target
                    else if decide (Ext name = ".service") then Ret Service
                    else Panic "Trying to load an unsupported unit type")
                   = Ret k) as [k ->].
      { repeat case_decide; naive_solver. }
      simpl. set (u := fresh _).
      assert (Hfresh : u ∉ ({[nil]} ∪ dom (mem sys) : gset ptr))
        by apply is_fresh.
      assert (Hunil : u ≠ nil) by set_solver.
      assert (Hnew : mem sys !! u = None) by (apply not_elem_of_dom; set_solver).
      assert (Hkeep : ∀ p, is_Some (mem sys !! p) →
                           is_Some (<[u := NewUnit k]> (mem sys) !! p)).
      { intros p [y Hy]. rewrite lookup_insert_ne; [by eexists|].
        intros ->. congruence. }
      assert (Hkeepn : ∀ p, is_Some (names sys !! p) →
                            is_Some (<[u := name]> (names sys) !! p)).
      { intros p [y Hy]. rewrite lookup_insert. case_decide; by eexists. }
      eexists _, u, (NewUnit k). split; [reflexivity|].
      split; [|split_and!; cbn [mem names active Paths]; try done].
      + split_and!; cbn [mem names parsed loaded].
        * by rewrite lookup_insert_ne.
        * intros n p Hn.
          assert (p = u ∨ parsed sys !! n = Some p ∨ loaded sys !! n = Some p)
            as [->|Hold].
          { destruct Hn as [Hn|Hn]; [|by auto].
            destruct (decide (name = q)).
            - rewrite lookup_insert in Hn. case_decide; [left; congruence|by auto].
            - rewrite lookup_insert in Hn. case_decide; [left; congruence|].
              rewrite lookup_insert in Hn. case_decide; [left; congruence|by auto]. }
          -- rewrite !lookup_insert_eq. by split; eexists.
          -- destruct (Hreg n p Hold) as [Hm Hn']. split; auto.
        * intros p. rewrite lookup_insert. case_decide as Hp.
          -- subst p. intros _. rewrite lookup_insert_eq. by eexists.
          -- intros Hn. apply Hkeep, Hnm, Hn.
      + by rewrite lookup_insert_eq.
      + rewrite lookup_insert_eq. by eexists.
      + intros p n Hn. rewrite lookup_insert_ne; [done|].
        intros ->. assert (is_Some (mem sys !! p)) as [? ?] by (apply Hnm; by eexists).
        congruence. }
  destruct (match parsed sys !! name with Some _ => _ | None => _ end)
    as [[sys0 u0]| |]; [|done..].
  injection Hc as -> ->.
  simpl. unfold deref. rewrite Hx. simpl.
  destruct Hwf1 as (Hnil1 & Hreg1 & Hnm1).
  assert (Hfin : ∀ x' (ld : gmap string ptr) (e : option error),
            (ld = loaded sys1 ∨ ld = <[name := u]> (loaded sys1)) →
            ∃ sys' u' e',
              Ret (mkDaemon (<[u := x']> (mem sys1)) (active sys1) ld
                     (parsed sys1) (names sys1) (Paths sys1), u, e)
              = Ret (sys', u', e') ∧ Daemon1_wf sys' ∧
              (∀ p, is_Some (mem sys !! p) → is_Some (mem sys' !! p)) ∧
              (∀ p n, names sys !! p = Some n → names sys' !! p = Some n) ∧
              active sys' = active sys ∧ Paths sys' = Paths sys ∧
              (u' = nil → e' ≠ None ∧ sys' = sys) ∧
              (u' ≠ nil → is_Some (mem sys' !! u') ∧ is_Some (names sys' !! u'))).
  { intros x' ld e Hld.
    assert (Hkeep : ∀ p, is_Some (mem sys1 !! p) →
                         is_Some (<[u := x']> (mem sys1) !! p)).
    { intros p [y Hy]. rewrite lookup_insert. case_decide; by eexists. }
    eexists _, u, e. split; [reflexivity|].
    refine (conj _ (conj _ (conj Hnames1 (conj Hact1 (conj Hp1 (conj _ _))))));
      cbn [mem names active Paths].
    - split_and!; cbn [mem names parsed loaded].
      + rewrite lookup_insert_ne; [done|]. intros ->. congruence.
      + intros n p Hn.
        assert (p = u ∨ parsed sys1 !! n = Some p ∨ loaded sys1 !! n = Some p)
          as [->|Hold].
        { destruct Hn as [Hn|Hn]; [by auto|].
          destruct Hld as [->| ->]; [by auto|].
          rewrite lookup_insert in Hn. case_decide; [left; congruence|by auto]. }
        * rewrite lookup_insert_eq. by split; [eexists|].
        * destruct (Hreg1 n p Hold) as [Hm Hn']. split; auto.
      + intros p Hn. apply Hkeep, Hnm1, Hn.
    - intros p Hp. apply Hkeep, Hmem1, Hp.
    - done.
    - intros _. split; [|done]. rewrite lookup_insert_eq. by eexists. }
  unfold set_mem.
  destruct (match stat_err file with Some _ => _ | None => _ end) as [e|];
    [apply Hfin; by left|].
  destruct (parse file) as [d|msgs|msg]; apply Hfin; auto.
Qed.

(** X17.  In the first registry, [Get] and [Load] keep the registry
    consistent and never panic, provided joining a search path and the name
    keeps the extension of the name: nil stays no unit, every parsed and
    every loaded name points to a unit of the store that has a name, no unit
    is deleted, no unit loses or changes its name, and the map of active
    units and the search paths are untouched.  Nil is returned only with an
    error and with the registry as it was; any other unit returned is in the
    store and named, so that [nameOf] does not panic on it. *)
Theorem Get_keeps_first_registry_consistent Join fs sys name :
  Daemon1_wf sys →
  (∀ p, p ∈ Paths sys → Ext (Join p name) = Ext name) →
  ∃ sys' u e,
    Get Join fs sys name = Ret (sys', u, e) ∧ Daemon1_wf sys' ∧
    (∀ p, is_Some (mem sys !! p) → is_Some (mem sys' !! p)) ∧
    (∀ p n, names sys !! p = Some n → names sys' !! p = Some n) ∧
    active sys' = active sys ∧ Paths sys' = Paths sys ∧
    (u = nil → e ≠ None ∧ sys' = sys) ∧
    (u ≠ nil → is_Some (mem sys' !! u) ∧ is_Some (names sys' !! u)).
Proof.
  intros Hwf Hext. unfold Get.
  destruct (loaded sys !! name) as [u|] eqn:Hl.
  - pose proof Hwf as (Hnil & Hreg & Hnm).
    destruct (Hreg name u (or_intror Hl)) as [[x Hx] Hn].
    exists sys, u, None.
    refine (conj eq_refl (conj Hwf (conj _ (conj _ (conj _ (conj _ (conj _ _)))))));
      try done.
    intros ->. congruence.
  - unfold Load. destruct (Supported name) eqn:Hs; simpl.
    2: { exists sys, nil, (Some ErrUnknownType).
         by refine (conj eq_refl (conj Hwf (conj _ (conj _ (conj _ (conj _ (conj _ _))))))). }
    apply Load_paths_wf; [done..|].
    destruct (IsAbs name).
    + by intros q ->%list_elem_of_singleton.
    + intros q (p & -> & Hp)%list_elem_of_fmap. by apply Hext.
Qed.

Lemma Get_keeps_first_registry_consistent_witness :
  ∃ sys' u e,
    Get join fs_service (mkDaemon ∅ ∅ ∅ ∅ ∅ ["/etc/systemd/system"])
      "foo.service" = Ret (sys', u, e) ∧
    Daemon1_wf sys' ∧
    (∀ p, is_Some ((∅ : gmap ptr Unit) !! p) → is_Some (mem sys' !! p)) ∧
    (∀ p n, (∅ : gmap ptr string) !! p = Some n → names sys' !! p = Some n) ∧
    active sys' = ∅ ∧ Paths sys' = ["/etc/systemd/system"] ∧
    (u = nil → e ≠ None ∧
               sys' = mkDaemon ∅ ∅ ∅ ∅ ∅ ["/etc/systemd/system"]) ∧
    (u ≠ nil → is_Some (mem sys' !! u) ∧ is_Some (names sys' !! u)).
Proof.
  apply (Get_keeps_first_registry_consistent join fs_service
           (mkDaemon ∅ ∅ ∅ ∅ ∅ ["/etc/systemd/system"]) "foo.service").
  - split; [reflexivity|]. split.
    + intros n u [Hn|Hn]; cbn [parsed loaded] in Hn;
        rewrite lookup_empty in Hn; discriminate.
    + intros u [n Hn]. cbn [names] in Hn. rewrite lookup_empty in Hn.
      discriminate.
  - intros p Hp. cbn [Paths] in Hp. apply list_elem_of_singleton in Hp.
    subst p. vm_compute. reflexivity.
Defined.

End first_registry_more.
